(** * The batched-request pipeline of the categorization notebook

    A shallow embedding of the Python cells of
    "Using The OpenAI API for Categorization and Labeling Tutorial.ipynb":

    - [get_completion_from_messages] (the single-message helper),
    - [get_completion_from_messages_batch] (the batch loop under the
      [@retry] decorator),
    - the bracket-repair loop over [responses],
    - the [all_topics] / [unique_topics] cells.

    Python values are modelled as follows: [str] as [string] (ASCII text),
    [int] as [Z], a one-column data frame as the list of its cells, a list
    mutated by index with stdpp's list insert, [set] as [gset], exceptions
    as a result type, and the outbound call as a transition of an abstract
    service state that is logged in a trace of events. *)

From Stdlib Require Import ZArith QArith Lqa String Ascii List Lia.
From stdpp Require Import base list gmap strings.

Local Open Scope string_scope.
Local Open Scope list_scope.
Local Open Scope Z_scope.

(** ** Python primitives *)

Module Py.

(** The exceptions that the cells can meet.  The first five are the error
    classes of the [openai] package, [IndexError] and [ValueError] are
    builtins, [RetryError] is tenacity's wrapper around the last failure. *)
Inductive exn : Type :=
| RateLimitError
| Timeout
| APIConnectionError
| AuthenticationError
| InvalidRequestError
| IndexError
| ValueError
| RetryError (last_attempt : exn).

Inductive result (A : Type) : Type :=
| Ok (v : A)
| Raise (e : exn).
Arguments Ok {A} v.
Arguments Raise {A} e.

Definition len {A} (l : list A) : Z := Z.of_nat (length l).

Definition str_len (s : string) : Z := Z.of_nat (String.length s).

(** [range(start, stop, step)]: the length is CPython's
    [compute_range_length], the items are [start + k * step]. *)
Definition range_length (start stop step : Z) : Z :=
  if 0 <? step then
    if start <? stop then (stop - start - 1) / step + 1 else 0
  else
    if stop <? start then (start - stop - 1) / (- step) + 1 else 0.

Definition range (start stop step : Z) : result (list Z) :=
  if step =? 0 then Raise ValueError
  else Ok (map (fun k => start + Z.of_nat k * step)
               (seq 0 (Z.to_nat (range_length start stop step)))).

(** A slice bound as Python normalises it for a sequence of length [n]. *)
Definition slice_bound (n i : Z) : Z :=
  if i <? 0 then Z.max 0 (n + i) else Z.min i n.

(** [l[i:j]]; this is also [df.iloc[i:j]] on the rows of a frame. *)
Definition slice {A} (l : list A) (i j : Z) : list A :=
  let a := slice_bound (len l) i in
  let b := slice_bound (len l) j in
  take (Z.to_nat (b - a)) (drop (Z.to_nat a) l).

(** [s[i]] on a string: a negative index counts from the end, an index out
    of range raises [IndexError]. *)
Definition str_index (s : string) (i : Z) : result ascii :=
  let k := if i <? 0 then i + str_len s else i in
  if (0 <=? k) && (k <? str_len s)
  then match String.get (Z.to_nat k) s with
       | Some c => Ok c
       | None => Raise IndexError
       end
  else Raise IndexError.

(** [l[i]] on a list, same convention. *)
Definition list_index {A} (l : list A) (i : Z) : result A :=
  let k := if i <? 0 then i + len l else i in
  if (0 <=? k) && (k <? len l)
  then match l !! Z.to_nat k with
       | Some x => Ok x
       | None => Raise IndexError
       end
  else Raise IndexError.

(** [str.isspace] on one ASCII character: tab, line feed, vertical tab,
    form feed, carriage return, the four separators 28..31 and space. *)
Definition is_space (c : ascii) : bool :=
  let n := nat_of_ascii c in
  ((9 <=? n)%nat && (n <=? 13)%nat) || ((28 <=? n)%nat && (n <=? 32)%nat).

(** [str.lower] on ASCII text. *)
Definition lower_char (c : ascii) : ascii :=
  let n := nat_of_ascii c in
  if (65 <=? n)%nat && (n <=? 90)%nat then ascii_of_nat (n + 32) else c.

Fixpoint lower (s : string) : string :=
  match s with
  | EmptyString => EmptyString
  | String c s' => String (lower_char c) (lower s')
  end.

(** [str.split()] without argument: the maximal runs of non-space
    characters; [word] is the run read so far. *)
Fixpoint split_from (word : string) (s : string) : list string :=
  match s with
  | EmptyString => if String.eqb word "" then [] else [word]
  | String c s' =>
      if is_space c
      then (if String.eqb word "" then split_from "" s'
            else word :: split_from "" s')
      else split_from (word +:+ String c "") s'
  end.

Definition split (s : string) : list string := split_from "" s.

End Py.

Import Py.

(** ** The chat-completion endpoint as the cells use it *)

Module OpenAI.

Record chat_message : Type := { role : string; content : string }.

Record choice : Type := { message : chat_message }.

(** The object returned by [openai.ChatCompletion.create]. *)
Record completion : Type := { choices : list choice }.

(** The keyword arguments of [openai.ChatCompletion.create]. *)
Record request : Type :=
  { model : string;
    messages : list chat_message;
    temperature : Q;
    max_tokens : Z }.

End OpenAI.

Import OpenAI.

(** What a run does to the outside world, in order: an outbound call with
    the answer it got, or a blocking sleep between two attempts. *)
Inductive event : Type :=
| Call (rq : request) (answer : result completion)
| Sleep (seconds : Q).

(** The requests of a trace, in the order they were issued. *)
Definition issued (t : list event) : list request :=
  omap (fun ev => match ev with Call rq _ => Some rq | Sleep _ => None end) t.

(** The delays of a trace, in the order they were slept. *)
Definition delays (t : list event) : list Q :=
  omap (fun ev => match ev with Sleep d => Some d | Call _ _ => None end) t.

(** The answers a trace recorded for the request [rq], oldest first. *)
Definition answers_to (rq_eqb : request -> bool) (t : list event)
  : list (result completion) :=
  omap (fun ev => match ev with
                  | Call rq a => if rq_eqb rq then Some a else None
                  | Sleep _ => None
                  end) t.

(** ** tenacity *)

Module Tenacity.

(** Modelled from the spec: tenacity is a dependency and its code is not
    in the repository.  The upper end of the window after attempt
    [attempt_number] doubles with every attempt from [multiplier] and is
    clamped between [min] and [max] (the "exponentially-bounded window"). *)
Definition wait_exponential (multiplier min max : Z) (attempt_number : nat) : Z :=
  Z.max (Z.max 0 min)
        (Z.min (multiplier * 2 ^ (Z.of_nat attempt_number - 1)) max).

(** Modelled from the spec: the delay is drawn uniformly between [min] and
    the upper end of the window; [u] is the draw of [random.uniform(0, 1)]. *)
Definition wait_random_exponential (min max : Z) (attempt_number : nat) (u : Q) : Q :=
  (inject_Z min
   + u * (inject_Z (wait_exponential 1 min max attempt_number) - inject_Z min))%Q.

End Tenacity.

(** ** The effects of a cell *)

Section Cells.

(** The state of everything behind the endpoint, and one outbound call. *)
Variable World : Type.
Variable ChatCompletion_create : request -> World -> result completion * World.

(** The draw of the random generator used for the wait after attempt [n]. *)
Variable uniform : nat -> Q.

(** A computation runs from a state of the world to a value or an
    exception, the new state and the events it caused. *)
Definition M (A : Type) : Type := World -> result A * World * list event.

Definition ret {A} (v : A) : M A := fun w => (Ok v, w, []).

Definition lift {A} (r : result A) : M A := fun w => (r, w, []).

Definition bind {A B} (m : M A) (k : A -> M B) : M B :=
  fun w =>
    match m w with
    | (Ok v, w1, t1) =>
        match k v w1 with
        | (r, w2, t2) => (r, w2, t1 ++ t2)
        end
    | (Raise e, w1, t1) => (Raise e, w1, t1)
    end.

Notation "x <- m ;; k" := (bind m (fun x => k))
  (at level 100, m at next level, right associativity).

Definition create (rq : request) : M completion :=
  fun w =>
    match ChatCompletion_create rq w with
    | (a, w1) => (a, w1, [Call rq a])
    end.

(** [@retry(wait=..., stop=stop_after_attempt(n))] around [fn]: the
    decorated name is bound to a wrapper that calls [fn] afresh at every
    attempt.  The decorator's code is tenacity's and not in the repository;
    the loop follows the library's documented behaviour for the arguments
    the notebook passes.  No [retry=] argument is given, so every exception
    of [fn] is retried; no [reraise=] argument is given, so the failure of
    the last attempt comes out wrapped in [RetryError].  [attempts_left]
    counts the attempts that [stop_after_attempt] still allows after
    attempt [attempt_number]; the wait is computed from the number of the
    attempt that just failed. *)
Fixpoint retry_loop {A} (wait : nat -> Q) (attempts_left attempt_number : nat)
    (fn : M A) : M A :=
  fun w =>
    match fn w with
    | (Ok v, w1, t1) => (Ok v, w1, t1)
    | (Raise e, w1, t1) =>
        match attempts_left with
        | O => (Raise (RetryError e), w1, t1)
        | S n =>
            match retry_loop wait n (S attempt_number) fn w1 with
            | (r, w2, t2) => (r, w2, t1 ++ Sleep (wait attempt_number) :: t2)
            end
        end
    end.

Definition retry {A} (wait : nat -> Q) (stop_after_attempt : nat) (fn : M A) : M A :=
  retry_loop wait (stop_after_attempt - 1) 1 fn.

(** [response.choices[0].message["content"]] *)
Definition first_content (response : completion) : result string :=
  match list_index (choices response) 0 with
  | Ok c => Ok (content (message c))
  | Raise e => Raise e
  end.

(** *** The single-message helper *)

Definition default_model : string := "gpt-3.5-turbo".

Definition get_completion_from_messages (messages : list chat_message)
    (model : string) (temperature : Q) (max_tokens : Z) : M string :=
  response <- create {| model := model; messages := messages;
                        temperature := temperature; max_tokens := max_tokens |} ;;
  lift (first_content response).

(** The call [get_completion_from_messages(messages)]. *)
Definition get_completion_from_messages_default (messages : list chat_message)
  : M string :=
  get_completion_from_messages messages default_model 0 150.

(** *** The batch helper *)

Definition delimiter : string := "####".

(** The inner loop over [batch.iterrows()]. *)
Definition user_message_of (batch : list string) : string :=
  fold_left (fun user_message row => user_message +:+ (row +:+ delimiter))
            batch "".

Definition batch_messages (system_message : string) (batch : list string)
  : list chat_message :=
  [ {| role := "system"; content := system_message |};
    {| role := "user"; content := user_message_of batch |} ].

Definition batch_request (system_message model : string) (temperature : Q)
    (max_tokens : Z) (batch : list string) : request :=
  {| model := model;
     messages := batch_messages system_message batch;
     temperature := temperature;
     max_tokens := max_tokens |}.

(** The outer loop, over the offsets that [range] produced. *)
Fixpoint batch_loop (df : list string) (system_message : string)
    (batch_size : Z) (model : string) (temperature : Q) (max_tokens : Z)
    (offsets : list Z) (responses : list string) : M (list string) :=
  match offsets with
  | [] => ret responses
  | i :: offsets' =>
      let batch := slice df i (i + batch_size) in
      response <- create (batch_request system_message model temperature
                                        max_tokens batch) ;;
      content <- lift (first_content response) ;;
      batch_loop df system_message batch_size model temperature max_tokens
                 offsets' (responses ++ [content])
  end.

(** The function body, as one attempt of the decorator runs it. *)
Definition batch_body (df : list string) (system_message : string)
    (batch_size : Z) (model : string) (temperature : Q) (max_tokens : Z)
  : M (list string) :=
  offsets <- lift (range 0 (len df) batch_size) ;;
  batch_loop df system_message batch_size model temperature max_tokens
             offsets [].

(** [wait_random_exponential(min=30, max=60)] with the draws of this run. *)
Definition backoff (attempt_number : nat) : Q :=
  Tenacity.wait_random_exponential 30 60 attempt_number (uniform attempt_number).

(** The decorated function. *)
Definition get_completion_from_messages_batch (df : list string)
    (system_message : string) (batch_size : Z) (model : string)
    (temperature : Q) (max_tokens : Z) : M (list string) :=
  retry backoff 6
        (batch_body df system_message batch_size model temperature max_tokens).

(** The call [get_completion_from_messages_batch(df, system_message, batch_size)]. *)
Definition get_completion_from_messages_batch_default (df : list string)
    (system_message : string) (batch_size : Z) : M (list string) :=
  get_completion_from_messages_batch df system_message batch_size
                                     default_model 0 300.

(** *** Describing runs *)

(** What one iteration of the outer loop makes of the answer to its call:
    the content appended to [responses], or the exception that leaves the
    loop. *)
Definition content_of (answer : result completion) : result string :=
  match answer with
  | Ok response => first_content response
  | Raise e => Raise e
  end.

(** The events of calls that were all answered. *)
Definition calls (rqs : list request) (answered : list completion) : list event :=
  zip_with (fun rq response => Call rq (Ok response)) rqs answered.

(** [served rqs w answered contents w']: issued in this order from the
    state [w], the requests [rqs] are all answered, with completions whose
    first choices hold [contents], and leave the service in [w']. *)
Inductive served : list request -> World -> list completion -> list string
                   -> World -> Prop :=
| served_nil w : served [] w [] [] w
| served_cons rq rqs w response c w1 answered contents w2 :
    ChatCompletion_create rq w = (Ok response, w1) ->
    first_content response = Ok c ->
    served rqs w1 answered contents w2 ->
    served (rq :: rqs) w (response :: answered) (c :: contents) w2.

(** A run without failure: every call was answered with a completion that
    has a first choice. *)
Definition failure_free (t : list event) : Prop :=
  Forall (fun ev => match ev with
                    | Call _ a => exists c, content_of a = Ok c
                    | Sleep _ => True
                    end) t.

End Cells.

Arguments content_of answer : simpl nomatch.

(** Modelled from the spec: the error taxonomy of the spec's section 7 on
    the error classes of the [openai] package.  Rate limits, timeouts and
    connection errors are transient; bad credentials and invalid requests
    are permanent.  Nothing in the notebook mentions this distinction. *)
Definition transient (e : exn) : bool :=
  match e with
  | RateLimitError | Timeout | APIConnectionError => true
  | _ => false
  end.

Arguments ret {World A} v.
Arguments lift {World A} r.
Arguments bind {World A B} m k.

(** The batches of a frame, as the outer loop slices them. *)
Definition batches (df : list string) (batch_size : Z) : list (list string) :=
  match range 0 (len df) batch_size with
  | Ok offsets => map (fun i => slice df i (i + batch_size)) offsets
  | Raise _ => []
  end.

(** [ceil(n / b)] for [b >= 1]. *)
Definition ceil_div (n b : Z) : Z := (n + b - 1) / b.

(** ** The bracket-repair cell *)

Definition closing_bracket : ascii := "]"%char.

(** [for i, r in enumerate(responses)]: the iterator reads the list that
    the body updates in place, so the list is threaded through the loop;
    [todo] bounds the iterations by the length at entry (the body never
    changes the length).  The result is the list as the cell leaves it and
    the exception that stopped it, if any. *)
Fixpoint repair_loop (todo i : nat) (responses : list string)
  : list string * option exn :=
  match todo with
  | O => (responses, None)
  | S todo' =>
      match responses !! i with
      | None => (responses, None)
      | Some r =>
          match str_index r (str_len r - 1) with
          | Raise e => (responses, Some e)
          | Ok last =>
              if Ascii.eqb last closing_bracket
              then repair_loop todo' (S i) responses
              else repair_loop todo' (S i)
                               (alter (fun s => s +:+ "]") i responses)
          end
      end
  end.

Definition repair (responses : list string) : list string * option exn :=
  repair_loop (length responses) 0 responses.

(** The last character of a string, if it has one. *)
Fixpoint last_char (s : string) : option ascii :=
  match s with
  | EmptyString => None
  | String c EmptyString => Some c
  | String _ s' => last_char s'
  end.

Definition ends_with_bracket (s : string) : Prop :=
  last_char s = Some closing_bracket.

(** ** The distinct-label cells *)

(** [[string.lower() for string in all_topics if len(string.split()) == 1]] *)
Definition single_word_topics (all_topics : list string) : list string :=
  map lower (filter (fun s => len (split s) = 1) all_topics).

(** [set(all_topics)] after the comprehension; [unique_topics] is this set
    listed in an order the language does not fix. *)
Definition unique_topics (all_topics : list string) : gset string :=
  list_to_set (single_word_topics all_topics).

(** Closing a response with ["]"] unless its last character is one; this
    names what the bracket-repair cell makes of an element it gets past. *)
Definition close_bracket (r : string) : string :=
  match last_char r with
  | Some c => if Ascii.eqb c closing_bracket then r else r +:+ "]"
  | None => r
  end.

(** The content of the last message of a request: for a request of the
    batch helper, the text of its batch. *)
Definition user_content (rq : request) : string :=
  match last (messages rq) with
  | Some m => content m
  | None => ""
  end.

(** How many calls of a trace carried the batch text [text]. *)
Definition times_issued (text : string) (t : list event) : nat :=
  length (filter (fun rq => user_content rq = text) (issued t)).

(** A row in which the character ["#"] of the delimiter does not occur. *)
Fixpoint hash_free (s : string) : bool :=
  match s with
  | EmptyString => true
  | String c s' => negb (Ascii.eqb c "#") && hash_free s'
  end.

(** ** A scripted service, for running the cells on concrete inputs *)

Module Scripted.

(** The state is the number of calls received so far; the script gives the
    answer to the n-th call. *)
Definition service (script : nat -> request -> result completion)
    (rq : request) (n : nat) : result completion * nat :=
  (script n rq, S n).

Definition reply (text : string) : completion :=
  {| choices := [ {| message := {| role := "assistant"; content := text |} |} ] |}.

(** Answers every call with the content of the last message it was sent. *)
Definition echo (rq : request) : result completion :=
  Ok (reply (match last (messages rq) with
             | Some m => content m
             | None => ""
             end)).

Definition always_echo (n : nat) (rq : request) : result completion := echo rq.

(** Fails the calls whose number is in [failing] with [e]. *)
Definition failing_at (failing : list nat) (e : exn) (n : nat) (rq : request)
  : result completion :=
  if bool_decide (n ∈ failing) then Raise e else echo rq.

Definition always_failing (e : exn) (n : nat) (rq : request)
  : result completion := Raise e.

Definition no_draw (n : nat) : Q := 0%Q.

(** Five rows in batches of two, every call answered. *)
Definition echo_run : result (list string) * nat * list event :=
  get_completion_from_messages_batch_default
    nat (service always_echo) no_draw ["a"; "b"; "c"; "d"; "e"] "sys" 2 0%nat.

(** Two rows in batches of one; the call of the second batch fails with a
    rate-limit error the first two times it is issued (calls number 1 and
    3 of the run) and is answered the third time. *)
Definition two_failures_run : result (list string) * nat * list event :=
  get_completion_from_messages_batch_default
    nat (service (failing_at [1%nat; 3%nat] RateLimitError)) no_draw
    ["a"; "b"] "sys" 1 0%nat.

(** One row; every call fails with an authentication error. *)
Definition auth_failure_run : result (list string) * nat * list event :=
  get_completion_from_messages_batch_default
    nat (service (always_failing AuthenticationError)) no_draw
    ["a"] "sys" 1 0%nat.

End Scripted.

(** ** Runs in which attempt after attempt fails *)

(** [failed_attempts create wait rqs k w stops t e w']: from the state [w]
    and the attempt number [k], [length stops] attempts over the requests
    [rqs] fail one after the other.  In the attempt with stop [i] the
    requests before position [i] are answered and the call of the request
    at position [i] fails; a wait follows every attempt but the last.  [t]
    is the trace of all of it, [e] the exception of the last attempt and
    [w'] the state it leaves. *)
Inductive failed_attempts {World : Type}
    (create : request -> World -> result completion * World)
    (wait : nat -> Q) (rqs : list request)
  : nat -> World -> list nat -> list event -> exn -> World -> Prop :=
| failed_last k w i rq answered contents w1 a e w2 :
    rqs !! i = Some rq ->
    served World create (take i rqs) w answered contents w1 ->
    create rq w1 = (a, w2) ->
    content_of a = Raise e ->
    failed_attempts create wait rqs k w [i]
                    (calls (take i rqs) answered ++ [Call rq a]) e w2
| failed_then k w i rq answered contents w1 a e1 w2 stops t e w' :
    rqs !! i = Some rq ->
    served World create (take i rqs) w answered contents w1 ->
    create rq w1 = (a, w2) ->
    content_of a = Raise e1 ->
    failed_attempts create wait rqs (S k) w2 stops t e w' ->
    failed_attempts create wait rqs k w (i :: stops)
                    ((calls (take i rqs) answered ++ [Call rq a])
                       ++ Sleep (wait k) :: t) e w'.

(** ** Further scripted runs *)

Module Scenarios.

Import Scripted.

Definition half_draw (n : nat) : Q := (1 # 2)%Q.

(** With batches of one row, the calls of the second batch are the calls
    with an odd number when that batch fails in every attempt.  They fail
    with a rate-limit error, the sixth of them (call number 11) with an
    authentication error; every other call is answered. *)
Definition second_batch_fails (n : nat) (rq : request) : result completion :=
  if Nat.odd n
  then Raise (if (n =? 11)%nat then AuthenticationError else RateLimitError)
  else echo rq.

(** Three rows in batches of one against [second_batch_fails]. *)
Definition second_batch_fails_run : result (list string) * nat * list event :=
  get_completion_from_messages_batch_default
    nat (service second_batch_fails) half_draw ["a"; "b"; "c"] "sys" 1 0%nat.

(** [Scripted.two_failures_run] with every draw at one half. *)
Definition two_waits_run : result (list string) * nat * list event :=
  get_completion_from_messages_batch_default
    nat (service (failing_at [1%nat; 3%nat] RateLimitError)) half_draw
    ["a"; "b"] "sys" 1 0%nat.

End Scenarios.

(** * Properties *)

Example range_5_2 : range 0 5 2 = Ok [0; 2; 4].
Proof. reflexivity. Qed.

Example batches_abcde :
  batches ["a"; "b"; "c"; "d"; "e"] 2 = [["a"; "b"]; ["c"; "d"]; ["e"]].
Proof. reflexivity. Qed.

(** ** Ranges and slices *)

Lemma ceil_div_range_length n b :
  0 <= n -> 1 <= b -> range_length 0 n b = ceil_div n b.
Proof.
  intros Hn Hb. unfold range_length, ceil_div.
  destruct (Z.ltb_spec 0 b) as [_|?]; [|lia].
  destruct (Z.ltb_spec 0 n) as [Hpos|Hz].
  - replace (n + b - 1) with (n - 0 - 1 + 1 * b) by lia.
    rewrite Z.div_add by lia. reflexivity.
  - assert (n = 0) by lia. subst n.
    rewrite Z.div_small by lia. reflexivity.
Qed.

(** [ceil_div n b] is the least number of windows of width [b] covering [n]. *)
Lemma ceil_div_spec n b :
  0 <= n -> 1 <= b ->
  0 <= ceil_div n b /\ n <= ceil_div n b * b /\
  forall c, 0 <= c -> n <= c * b -> ceil_div n b <= c.
Proof.
  intros Hn Hb. unfold ceil_div.
  pose proof (Z.div_mod (n + b - 1) b ltac:(lia)) as Hdm.
  pose proof (Z.mod_pos_bound (n + b - 1) b ltac:(lia)) as Hm.
  repeat split; [nia | nia |].
  intros c Hc Hcover. nia.
Qed.

Lemma range_ok n b :
  0 <= n -> 1 <= b ->
  range 0 n b
  = Ok (map (fun k => 0 + Z.of_nat k * b) (seq 0 (Z.to_nat (ceil_div n b)))).
Proof.
  intros Hn Hb. unfold range.
  destruct (Z.eqb_spec b 0); [lia|].
  rewrite ceil_div_range_length by assumption. reflexivity.
Qed.

Lemma range_zero_step start stop : range start stop 0 = Raise ValueError.
Proof. reflexivity. Qed.

Lemma range_negative_step n b : 0 <= n -> b < 0 -> range 0 n b = Ok [].
Proof.
  intros Hn Hb. unfold range, range_length.
  destruct (Z.eqb_spec b 0); [lia|].
  destruct (Z.ltb_spec 0 b); [lia|].
  destruct (Z.ltb_spec n 0); [lia|]. reflexivity.
Qed.

Lemma slice_window {A} (l : list A) (i b : nat) :
  (i <= length l)%nat -> (1 <= b)%nat ->
  slice l (Z.of_nat i) (Z.of_nat i + Z.of_nat b) = take b (drop i l).
Proof.
  intros Hi Hb. unfold slice, slice_bound, len.
  destruct (Z.ltb_spec (Z.of_nat i) 0); [lia|].
  destruct (Z.ltb_spec (Z.of_nat i + Z.of_nat b) 0); [lia|].
  rewrite (Z.min_l (Z.of_nat i)) by lia.
  rewrite Nat2Z.id.
  destruct (Z.le_ge_cases (Z.of_nat i + Z.of_nat b) (Z.of_nat (length l))).
  - rewrite Z.min_l by lia. f_equal. lia.
  - rewrite Z.min_r by lia.
    rewrite !take_ge; [reflexivity| |]; rewrite length_drop; lia.
Qed.

Lemma concat_windows {A} (l : list A) (b c : nat) :
  concat (map (fun k => take b (drop (k * b) l)) (seq 0 c)) = take (c * b) l.
Proof.
  induction c as [|c IH].
  - reflexivity.
  - rewrite seq_S, map_app, concat_app, IH. simpl.
    rewrite app_nil_r.
    replace (b + c * b)%nat with (c * b + b)%nat by lia.
    rewrite <- (take_drop (c * b) (take (c * b + b) l)).
    rewrite take_take, Nat.min_l by lia.
    rewrite <- take_drop_commute.
    replace (c * b + b - c * b)%nat with b by lia. reflexivity.
Qed.


Lemma batches_windows (df : list string) (b : Z) :
  1 <= b ->
  batches df b
  = map (fun k => take (Z.to_nat b) (drop (k * Z.to_nat b) df))
        (seq 0 (Z.to_nat (ceil_div (len df) b))).
Proof.
  intros Hb. unfold batches.
  rewrite range_ok by (unfold len; lia).
  rewrite map_map. apply map_ext_in. intros k Hk.
  apply in_seq in Hk.
  destruct (ceil_div_spec (len df) b) as (Hc0 & Hcov & Hleast);
    [unfold len; lia | lia |].
  assert (Hkb : (k * Z.to_nat b <= length df)%nat).
  { destruct (Nat.le_gt_cases (k * Z.to_nat b) (length df)) as [|Hgt]; [assumption|].
    exfalso. specialize (Hleast (Z.of_nat k) ltac:(lia)).
    unfold len in *. nia. }
  rewrite <- (slice_window df (k * Z.to_nat b) (Z.to_nat b)) by lia.
  f_equal; lia.
Qed.

Lemma batches_concat (df : list string) (b : Z) :
  1 <= b -> concat (batches df b) = df.
Proof.
  intros Hb. rewrite batches_windows by assumption.
  rewrite concat_windows. apply take_ge.
  destruct (ceil_div_spec (len df) b) as (Hc0 & Hcov & _);
    [unfold len; lia | lia |].
  unfold len in *. nia.
Qed.

Lemma batches_length (df : list string) (b : Z) :
  1 <= b -> length (batches df b) = Z.to_nat (ceil_div (len df) b).
Proof.
  intros Hb. rewrite batches_windows by assumption.
  rewrite length_map, length_seq. reflexivity.
Qed.

Lemma batches_nil (b : Z) : 1 <= b -> batches [] b = [].
Proof.
  intros Hb. rewrite batches_windows by assumption.
  unfold ceil_div, len. simpl. rewrite Z.div_small by lia. reflexivity.
Qed.

Lemma batches_nonempty (df : list string) (b : Z) :
  1 <= b -> Forall (fun batch => batch <> [] /\ (length batch <= Z.to_nat b)%nat)
                   (batches df b).
Proof.
  intros Hb. rewrite batches_windows by assumption.
  apply Forall_forall. intros batch Hin.
  apply list_elem_of_In, in_map_iff in Hin. destruct Hin as (k & <- & Hk).
  apply in_seq in Hk.
  destruct (ceil_div_spec (len df) b) as (Hc0 & Hcov & Hleast);
    [unfold len; lia | lia |].
  split.
  - intros Hnil. apply (f_equal (@length string)) in Hnil.
    rewrite length_take, length_drop in Hnil. simpl in Hnil.
    specialize (Hleast (Z.of_nat k) ltac:(lia)). unfold len in *. nia.
  - rewrite length_take. lia.
Qed.

(** ** Traces *)

Lemma issued_app t1 t2 : issued (t1 ++ t2) = issued t1 ++ issued t2.
Proof. unfold issued. apply omap_app. Qed.

Lemma delays_app t1 t2 : delays (t1 ++ t2) = delays t1 ++ delays t2.
Proof. unfold delays. apply omap_app. Qed.

Lemma issued_calls rqs answered :
  length answered = length rqs -> issued (calls rqs answered) = rqs.
Proof.
  revert answered. induction rqs as [|rq rqs IH]; intros [|a answered] Hlen;
    simpl in *; try discriminate; [reflexivity|].
  unfold issued in *. simpl. f_equal. apply IH. lia.
Qed.

Lemma delays_calls rqs answered : delays (calls rqs answered) = [].
Proof.
  revert answered. induction rqs as [|rq rqs IH]; intros [|a answered];
    try reflexivity.
  unfold delays in *. simpl. apply IH.
Qed.

(** ** One attempt of the batch loop *)

Section Runs.

Variable World : Type.
Variable ChatCompletion_create : request -> World -> result completion * World.
Variable uniform : nat -> Q.

Variables (df : list string) (system_message : string) (batch_size : Z).
Variables (model : string) (temperature : Q) (max_tokens : Z).

Let request_at (i : Z) : request :=
  batch_request system_message model temperature max_tokens
                (slice df i (i + batch_size)).

Let loop := batch_loop World ChatCompletion_create df system_message
                       batch_size model temperature max_tokens.

Let body := batch_body World ChatCompletion_create df system_message
                       batch_size model temperature max_tokens.

Let requests : list request :=
  map (batch_request system_message model temperature max_tokens)
      (batches df batch_size).

Lemma served_length rqs w answered contents w' :
  served World ChatCompletion_create rqs w answered contents w' ->
  length answered = length rqs /\ length contents = length rqs.
Proof. induction 1; simpl; lia. Qed.

Lemma served_app rqs1 rqs2 w answered1 contents1 w1 answered2 contents2 w2 :
  served World ChatCompletion_create rqs1 w answered1 contents1 w1 ->
  served World ChatCompletion_create rqs2 w1 answered2 contents2 w2 ->
  served World ChatCompletion_create (rqs1 ++ rqs2) w
         (answered1 ++ answered2) (contents1 ++ contents2) w2.
Proof.
  induction 1; intros Hrest; simpl; [assumption|].
  econstructor; eauto.
Qed.

Lemma batch_loop_cons i offsets responses w :
  loop (i :: offsets) responses w
  = match ChatCompletion_create (request_at i) w with
    | (a, w1) =>
        match content_of a with
        | Ok c =>
            match loop offsets (responses ++ [c]) w1 with
            | (r, w2, t2) => (r, w2, Call (request_at i) a :: t2)
            end
        | Raise e => (Raise e, w1, [Call (request_at i) a])
        end
    end.
Proof.
  unfold loop, request_at. simpl. unfold bind, create, lift.
  destruct (ChatCompletion_create _ w) as [[response|e] w1]; simpl;
    [|reflexivity].
  destruct (first_content response) as [c|e]; [|reflexivity].
  destruct (batch_loop _ _ _ _ _ _ _ _ _ _ w1) as [[r w2] t2]. reflexivity.
Qed.

Lemma loop_served offsets : forall responses w answered contents w',
  served World ChatCompletion_create (map request_at offsets) w
         answered contents w' ->
  loop offsets responses w
  = (Ok (responses ++ contents), w', calls (map request_at offsets) answered).
Proof.
  induction offsets as [|i offsets IH]; intros responses w answered contents w' Hs.
  - inversion Hs; subst. unfold loop. simpl. unfold ret.
    rewrite app_nil_r. reflexivity.
  - simpl in Hs. inversion Hs as [|? ? ? response c w1 ? ? ? Hcall Hc Hrest]; subst.
    rewrite batch_loop_cons, Hcall. simpl. rewrite Hc.
    rewrite (IH _ _ _ _ _ Hrest), <- app_assoc. reflexivity.
Qed.

Lemma loop_served_fail before : forall i after responses w answered contents w1 a w2 e,
  served World ChatCompletion_create (map request_at before) w
         answered contents w1 ->
  ChatCompletion_create (request_at i) w1 = (a, w2) ->
  content_of a = Raise e ->
  loop (before ++ i :: after) responses w
  = (Raise e, w2,
     calls (map request_at before) answered ++ [Call (request_at i) a]).
Proof.
  induction before as [|j before IH];
    intros i after responses w answered contents w1 a w2 e Hs Hcall Hfail.
  - inversion Hs; subst. simpl. rewrite batch_loop_cons, Hcall, Hfail.
    reflexivity.
  - simpl in Hs. inversion Hs as [|? ? ? response c w0 ? ? ? Hcall0 Hc Hrest]; subst.
    simpl. rewrite batch_loop_cons, Hcall0. simpl. rewrite Hc.
    rewrite (IH _ _ _ _ _ _ _ _ _ _ Hrest Hcall Hfail). reflexivity.
Qed.

(** How an attempt of the loop can end: every call was served, or the
    calls before some offset were served and that offset's call failed. *)
Lemma loop_inv offsets : forall responses w res w' t,
  loop offsets responses w = (res, w', t) ->
  match res with
  | Ok rs =>
      exists answered contents,
        served World ChatCompletion_create (map request_at offsets) w
               answered contents w'
        /\ rs = responses ++ contents
        /\ t = calls (map request_at offsets) answered
  | Raise e =>
      exists before i after answered contents w1 a,
        offsets = before ++ i :: after
        /\ served World ChatCompletion_create (map request_at before) w
                  answered contents w1
        /\ ChatCompletion_create (request_at i) w1 = (a, w')
        /\ content_of a = Raise e
        /\ t = calls (map request_at before) answered
               ++ [Call (request_at i) a]
  end.
Proof.
  induction offsets as [|i offsets IH]; intros responses w res w' t Hrun.
  - unfold loop in Hrun. simpl in Hrun. unfold ret in Hrun.
    injection Hrun as <- <- <-.
    exists [], []. rewrite app_nil_r. repeat split. constructor.
  - rewrite batch_loop_cons in Hrun.
    destruct (ChatCompletion_create (request_at i) w) as [a w1] eqn:Hcall.
    destruct (content_of a) as [c|e] eqn:Hc.
    + destruct (loop offsets (responses ++ [c]) w1) as [[r w2] t2] eqn:Hrest.
      injection Hrun as <- <- <-.
      assert (exists response, a = Ok response /\ first_content response = Ok c)
        as (response & -> & Hfc).
      { destruct a as [response|]; [eauto | discriminate]. }
      specialize (IH _ _ _ _ _ Hrest). destruct r as [rs|e].
      * destruct IH as (answered & contents & Hs & -> & ->).
        exists (response :: answered), (c :: contents).
        rewrite <- app_assoc. repeat split. econstructor; eauto.
      * destruct IH as (before & j & after & answered & contents & w3 & a'
                        & -> & Hs & Hcall' & Hfail & ->).
        exists (i :: before), j, after, (response :: answered),
               (c :: contents), w3, a'.
        repeat split; try assumption. econstructor; eauto.
    + injection Hrun as <- <- <-.
      exists [], i, offsets, [], [], w, a. repeat split; try assumption.
      constructor.
Qed.

Lemma body_unfold w :
  body w
  = match range 0 (len df) batch_size with
    | Ok offsets => loop offsets [] w
    | Raise e => (Raise e, w, [])
    end.
Proof.
  unfold body, batch_body, bind, lift, loop.
  destruct (range 0 (len df) batch_size) as [offsets|e]; [|reflexivity].
  destruct (batch_loop _ _ _ _ _ _ _ _ _ _ w) as [[r w2] t2]. reflexivity.
Qed.

Lemma requests_offsets :
  batch_size <> 0 ->
  exists offsets,
    range 0 (len df) batch_size = Ok offsets
    /\ map request_at offsets = requests.
Proof.
  intros Hnz. unfold requests, batches, range.
  destruct (Z.eqb_spec batch_size 0); [contradiction|].
  eexists. split; [reflexivity|].
  unfold request_at. symmetry. apply map_map.
Qed.

Lemma requests_zero : batch_size = 0 -> requests = [].
Proof. intros Hz. unfold requests, batches. rewrite Hz. reflexivity. Qed.

Lemma body_zero w : batch_size = 0 -> body w = (Raise ValueError, w, []).
Proof. intros Hz. rewrite body_unfold, Hz. reflexivity. Qed.

Lemma body_served w answered contents w' :
  batch_size <> 0 ->
  served World ChatCompletion_create requests w answered contents w' ->
  body w = (Ok contents, w', calls requests answered).
Proof.
  intros Hnz Hs. destruct (requests_offsets Hnz) as (offsets & Hr & Hrq).
  rewrite body_unfold, Hr. rewrite <- Hrq in *.
  apply (loop_served offsets [] w answered contents w' Hs).
Qed.

Lemma body_served_fail before rq after w answered contents w1 a w2 e :
  requests = before ++ rq :: after ->
  served World ChatCompletion_create before w answered contents w1 ->
  ChatCompletion_create rq w1 = (a, w2) ->
  content_of a = Raise e ->
  body w = (Raise e, w2, calls before answered ++ [Call rq a]).
Proof.
  intros Hsplit Hs Hcall Hfail.
  destruct (Z.eq_dec batch_size 0) as [Hz|Hnz].
  { rewrite (requests_zero Hz) in Hsplit. destruct before; discriminate. }
  destruct (requests_offsets Hnz) as (offsets & Hr & Hrq).
  rewrite body_unfold, Hr. rewrite <- Hrq in Hsplit.
  apply map_eq_app in Hsplit.
  destruct Hsplit as (ob & orest & -> & <- & Hrest).
  destruct orest as [|i oa]; [discriminate|].
  simpl in Hrest. injection Hrest as <- <-.
  eapply loop_served_fail; eauto.
Qed.

(** How one attempt of the function body can end. *)
Lemma body_inv w res w' t :
  body w = (res, w', t) ->
  match res with
  | Ok rs =>
      exists answered,
        served World ChatCompletion_create requests w answered rs w'
        /\ t = calls requests answered
  | Raise e =>
      (batch_size = 0 /\ e = ValueError /\ w' = w /\ t = [])
      \/ exists before rq after answered contents w1 a,
           requests = before ++ rq :: after
           /\ served World ChatCompletion_create before w answered contents w1
           /\ ChatCompletion_create rq w1 = (a, w')
           /\ content_of a = Raise e
           /\ t = calls before answered ++ [Call rq a]
  end.
Proof.
  intros Hrun. destruct (Z.eq_dec batch_size 0) as [Hz|Hnz].
  { rewrite (body_zero w Hz) in Hrun. injection Hrun as <- <- <-.
    left. repeat split; assumption. }
  destruct (requests_offsets Hnz) as (offsets & Hr & Hrq).
  rewrite body_unfold, Hr in Hrun.
  apply loop_inv in Hrun. destruct res as [rs|e].
  - destruct Hrun as (answered & contents & Hs & -> & ->).
    exists answered. rewrite Hrq in *. split; [assumption | reflexivity].
  - destruct Hrun as (ob & i & oa & answered & contents & w1 & a
                      & -> & Hs & Hcall & Hfail & ->).
    right. exists (map request_at ob), (request_at i), (map request_at oa),
                  answered, contents, w1, a.
    rewrite <- Hrq, map_app. repeat split; assumption.
Qed.

(** An attempt sleeps nowhere. *)
Lemma body_delays w res w' t : body w = (res, w', t) -> delays t = [].
Proof.
  intros Hrun. apply body_inv in Hrun. destruct res as [rs|e].
  - destruct Hrun as (answered & _ & ->). apply delays_calls.
  - destruct Hrun as [(_ & _ & _ & ->) | (before & rq & after & answered & contents
                                          & w1 & a & _ & _ & _ & _ & ->)];
      [reflexivity|].
    rewrite delays_app, delays_calls. reflexivity.
Qed.

(** ** The decorator *)

Section Retry.

Context {A : Type} (wait : nat -> Q) (fn : M World A).

(** The decorated function does not sleep by itself. *)
Hypothesis fn_quiet : forall w r w' t, fn w = (r, w', t) -> delays t = [].

Lemma retry_loop_first_ok n k w v w' t :
  fn w = (Ok v, w', t) ->
  retry_loop World wait n k fn w = (Ok v, w', t).
Proof. intros Hrun. destruct n; simpl; rewrite Hrun; reflexivity. Qed.

Lemma retry_loop_again n k w e w1 t1 :
  fn w = (Raise e, w1, t1) ->
  retry_loop World wait (S n) k fn w
  = match retry_loop World wait n (S k) fn w1 with
    | (r, w2, t2) => (r, w2, t1 ++ Sleep (wait k) :: t2)
    end.
Proof. intros Hrun. simpl. rewrite Hrun. reflexivity. Qed.

Lemma retry_loop_last n w e w1 t1 :
  fn w = (Raise e, w1, t1) ->
  retry_loop World wait 0 n fn w = (Raise (RetryError e), w1, t1).
Proof. intros Hrun. simpl. rewrite Hrun. reflexivity. Qed.

(** A retry loop that gives up has used every attempt: all of them failed,
    a wait separates each from the next, and the exception is the last
    attempt's, wrapped. *)
Lemma retry_loop_raise n : forall k w err w' t,
  retry_loop World wait n k fn w = (Raise err, w', t) ->
  exists e wl earlier tl,
    err = RetryError e
    /\ fn wl = (Raise e, w', tl)
    /\ t = earlier ++ tl
    /\ delays t = map wait (seq k n).
Proof.
  induction n as [|n IH]; intros k w err w' t Hrun.
  - simpl in Hrun. destruct (fn w) as [[[v|e] w1] t1] eqn:Hfn; [discriminate|].
    injection Hrun as <- <- <-. exists e, w, [], t1.
    repeat split; [assumption|]. apply (fn_quiet _ _ _ _ Hfn).
  - destruct (fn w) as [[[v|e] w1] t1] eqn:Hfn.
    + rewrite (retry_loop_first_ok _ _ _ _ _ _ Hfn) in Hrun. discriminate.
    + rewrite (retry_loop_again _ _ _ _ _ _ Hfn) in Hrun.
      destruct (retry_loop World wait n (S k) fn w1) as [[r w2] t2] eqn:Hrest.
      injection Hrun as -> <- <-.
      destruct (IH _ _ _ _ _ Hrest) as (e' & wl & earlier & tl & -> & Hl & -> & Hd).
      exists e', wl, (t1 ++ Sleep (wait k) :: earlier), tl.
      repeat split; [assumption | |].
      * rewrite <- app_assoc. reflexivity.
      * rewrite delays_app, (fn_quiet _ _ _ _ Hfn). simpl.
        unfold delays in *. simpl. rewrite Hd. reflexivity.
Qed.

(** A retry loop that returns a value returns the value of its last
    attempt, after at most [n] waits. *)
Lemma retry_loop_ok n : forall k w v w' t,
  retry_loop World wait n k fn w = (Ok v, w', t) ->
  exists wl earlier tl j,
    fn wl = (Ok v, w', tl)
    /\ t = earlier ++ tl
    /\ (j <= n)%nat
    /\ delays t = map wait (seq k j).
Proof.
  induction n as [|n IH]; intros k w v w' t Hrun.
  - simpl in Hrun. destruct (fn w) as [[[v1|e] w1] t1] eqn:Hfn; [|discriminate].
    injection Hrun as <- <- <-. exists w, [], t1, 0%nat.
    repeat split; [assumption | lia |]. apply (fn_quiet _ _ _ _ Hfn).
  - destruct (fn w) as [[[v1|e] w1] t1] eqn:Hfn.
    + rewrite (retry_loop_first_ok _ _ _ _ _ _ Hfn) in Hrun.
      injection Hrun as <- <- <-. exists w, [], t1, 0%nat.
      repeat split; [assumption | lia |]. apply (fn_quiet _ _ _ _ Hfn).
    + rewrite (retry_loop_again _ _ _ _ _ _ Hfn) in Hrun.
      destruct (retry_loop World wait n (S k) fn w1) as [[r w2] t2] eqn:Hrest.
      injection Hrun as -> <- <-.
      destruct (IH _ _ _ _ _ Hrest) as (wl & earlier & tl & j & Hl & -> & Hj & Hd).
      exists wl, (t1 ++ Sleep (wait k) :: earlier), tl, (S j).
      repeat split; [assumption | | lia |].
      * rewrite <- app_assoc. reflexivity.
      * rewrite delays_app, (fn_quiet _ _ _ _ Hfn). simpl.
        unfold delays in *. simpl. rewrite Hd. reflexivity.
Qed.

(** Whatever holds of the requests of every attempt holds of the requests
    of the whole loop. *)
Lemma retry_loop_issued (P : request -> Prop) n : forall k w r w' t,
  (forall w r w' t, fn w = (r, w', t) -> Forall P (issued t)) ->
  retry_loop World wait n k fn w = (r, w', t) ->
  Forall P (issued t).
Proof.
  induction n as [|n IH]; intros k w r w' t Hfn Hrun; simpl in Hrun;
    destruct (fn w) as [[[v|e] w1] t1] eqn:Hone;
    try (injection Hrun as <- <- <-; eapply Hfn; eassumption).
  destruct (retry_loop World wait n (S k) fn w1) as [[r2 w2] t2] eqn:Hrest.
  injection Hrun as <- <- <-.
  rewrite issued_app. apply Forall_app. split; [eapply Hfn; eassumption|].
  change (issued (Sleep (wait k) :: t2)) with (issued t2).
  eapply IH; eassumption.
Qed.

End Retry.
End Runs.

(** ** The decorated batch helper *)

Lemma first_content_spec response r :
  first_content response = Ok r
  <-> exists c rest, choices response = c :: rest /\ r = content (message c).
Proof.
  unfold first_content, list_index, len.
  destruct (choices response) as [|c rest]; simpl.
  - split; [discriminate | intros (c & rest & Hnil & _); discriminate].
  - destruct (Z.ltb_spec 0 (Z.pos (Pos.of_succ_nat (length rest)))) as [_|?]; [|lia].
    simpl. split.
    + intros [= <-]. eauto.
    + intros (c' & rest' & [= <- <-] & ->). reflexivity.
Qed.

Lemma served_contents {World} create rqs w answered contents w' :
  served World create rqs w answered contents w' ->
  Forall2 (fun response r => first_content response = Ok r) answered contents.
Proof. induction 1; constructor; assumption. Qed.

Lemma failure_free_app t1 t2 :
  failure_free (t1 ++ t2) <-> failure_free t1 /\ failure_free t2.
Proof. unfold failure_free. apply Forall_app. Qed.

Section Dispatcher.

Variable World : Type.
Variable ChatCompletion_create : request -> World -> result completion * World.
Variable uniform : nat -> Q.

Variables (df : list string) (system_message : string) (batch_size : Z).
Variables (model : string) (temperature : Q) (max_tokens : Z).

Local Abbreviation wait := (backoff uniform).

Local Abbreviation body :=
  (batch_body World ChatCompletion_create df system_message batch_size model
              temperature max_tokens).

Local Abbreviation dispatch :=
  (get_completion_from_messages_batch World ChatCompletion_create uniform df
     system_message batch_size model temperature max_tokens).

Local Abbreviation request_for :=
  (batch_request system_message model temperature max_tokens).

Lemma dispatch_unfold w : dispatch w = retry_loop World wait 5 1 body w.
Proof. reflexivity. Qed.

Lemma body_quiet w r w' t : body w = (r, w', t) -> delays t = [].
Proof. apply body_delays. Qed.

(** A run of the decorated function that raises: six attempts were made,
    the last one stopped at the call of some batch, and nothing follows
    that call. *)
Lemma dispatch_raise w err w' t :
  batch_size <> 0 ->
  dispatch w = (Raise err, w', t) ->
  exists e earlier before batch after answered a,
    err = RetryError e
    /\ batches df batch_size = before ++ batch :: after
    /\ t = earlier ++ calls (map request_for before) answered
                   ++ [Call (request_for batch) a]
    /\ length answered = length before
    /\ content_of a = Raise e
    /\ delays t = map wait (seq 1 5).
Proof.
  intros Hnz Hrun. rewrite dispatch_unfold in Hrun.
  apply (retry_loop_raise _ wait body body_quiet) in Hrun.
  destruct Hrun as (e & wl & earlier & tl & -> & Hlast & -> & Hd).
  apply body_inv in Hlast.
  destruct Hlast as [(Hz & _) | (rb & rq & ra & answered & contents & w1 & a
                                 & Hsplit & Hs & Hcall & Hfail & ->)];
    [contradiction|].
  apply map_eq_app in Hsplit. destruct Hsplit as (before & rest & Hb & <- & Hrest).
  destruct rest as [|batch after]; [discriminate|].
  simpl in Hrest. injection Hrest as <- <-.
  exists e, earlier, before, batch, after, answered, a.
  repeat split; try assumption.
  apply served_length in Hs. rewrite length_map in Hs. apply Hs.
Qed.

(** A run of the decorated function that returns: the value is the one of
    its last attempt, which called every batch in order. *)
Lemma dispatch_ok w rs w' t :
  dispatch w = (Ok rs, w', t) ->
  exists wl earlier answered,
    served World ChatCompletion_create
           (map request_for (batches df batch_size)) wl answered rs w'
    /\ t = earlier ++ calls (map request_for (batches df batch_size)) answered.
Proof.
  intros Hrun. rewrite dispatch_unfold in Hrun.
  apply (retry_loop_ok _ wait body body_quiet) in Hrun.
  destruct Hrun as (wl & earlier & tl & j & Hlast & -> & _ & _).
  apply body_inv in Hlast. destruct Hlast as (answered & Hs & ->).
  exists wl, earlier, answered. split; [assumption | reflexivity].
Qed.

(** Every request of a run is the request of one of the batches. *)
Lemma dispatch_issued w r w' t :
  dispatch w = (r, w', t) ->
  Forall (fun rq => exists batch,
                      batch ∈ batches df batch_size /\ rq = request_for batch)
         (issued t).
Proof.
  intros Hrun. rewrite dispatch_unfold in Hrun.
  eapply retry_loop_issued; [|exact Hrun].
  clear. intros w r w' t Hone.
  assert (Hall : Forall (fun rq => exists batch,
                   batch ∈ batches df batch_size /\ rq = request_for batch)
                 (map request_for (batches df batch_size))).
  { apply Forall_forall. intros rq Hin.
    apply list_elem_of_In, in_map_iff in Hin. destruct Hin as (batch & <- & Hin).
    exists batch. split; [apply list_elem_of_In; assumption | reflexivity]. }
  apply body_inv in Hone. destruct r as [rs|e].
  - destruct Hone as (answered & Hs & ->).
    rewrite issued_calls; [assumption|]. apply served_length in Hs. apply Hs.
  - destruct Hone as [(_ & _ & _ & ->) | (rb & rq & ra & answered & contents & w1
                                         & a & Hsplit & Hs & _ & _ & ->)].
    + constructor.
    + rewrite issued_app, issued_calls by (apply served_length in Hs; apply Hs).
      change (issued [Call rq a]) with [rq].
      rewrite Hsplit in Hall.
      apply Forall_app in Hall. destruct Hall as [Hb Hr].
      apply Forall_app. split; [assumption|].
      constructor; [|constructor]. apply Forall_cons in Hr. apply Hr.
Qed.

(** C2, as the code has it.  For [batch_size >= 1] the batches concatenated
    give back the rows, none dropped or repeated, and there are
    [ceil(N / batch_size)] of them.  In a run where no call fails, the
    calls issued are exactly the requests of the batches, one per batch and
    in source order, nothing is slept and one response per batch is
    returned.  For an empty frame nothing is issued and the result is the
    empty list. *)
Theorem dispatch_one_call_per_batch w res w' t :
  1 <= batch_size ->
  dispatch w = (res, w', t) ->
  concat (batches df batch_size) = df
  /\ length (batches df batch_size) = Z.to_nat (ceil_div (len df) batch_size)
  /\ (failure_free t ->
      issued t = map request_for (batches df batch_size)
      /\ delays t = []
      /\ exists rs, res = Ok rs /\ length rs = length (batches df batch_size))
  /\ (df = [] -> res = Ok [] /\ t = []).
Proof.
  intros Hb Hrun. rewrite dispatch_unfold in Hrun.
  split; [apply batches_concat; assumption|].
  split; [apply batches_length; assumption|].
  destruct (body w) as [[[rs|e] w1] t1] eqn:Hone.
  - rewrite (retry_loop_first_ok _ _ _ _ _ _ _ _ _ Hone) in Hrun.
    injection Hrun as <- <- <-.
    apply body_inv in Hone. destruct Hone as (answered & Hs & ->).
    pose proof (served_length _ _ _ _ _ _ _ Hs) as [Hla Hlc].
    rewrite length_map in Hla, Hlc.
    split.
    + intros _. split; [apply issued_calls; rewrite length_map; assumption|].
      split; [apply delays_calls|].
      exists rs. split; [reflexivity | assumption].
    + intros ->. rewrite batches_nil in * by assumption.
      destruct rs; [split; reflexivity | discriminate].
  - rewrite (retry_loop_again _ _ _ _ _ _ _ _ _ Hone) in Hrun.
    destruct (retry_loop World wait 4 2 body w1) as [[r2 w2] t2].
    injection Hrun as <- <- <-.
    apply body_inv in Hone.
    destruct Hone as [(Hz & _) | (rb & rq & ra & answered & contents & w3 & a
                                  & Hsplit & _ & _ & Hfail & ->)]; [lia|].
    split.
    + intros Hfree. exfalso.
      apply failure_free_app in Hfree. destruct Hfree as [Hfree _].
      apply failure_free_app in Hfree. destruct Hfree as [_ Hfree].
      apply Forall_cons in Hfree. destruct Hfree as [(c & Hc) _]. congruence.
    + intros ->. rewrite batches_nil in Hsplit by assumption.
      destruct rb; discriminate.
Qed.

(** *** Attempts that fail one after the other *)

Local Abbreviation requests := (map request_for (batches df batch_size)).

Lemma failed_attempts_stops rqs k w stops t e w' :
  failed_attempts ChatCompletion_create wait rqs k w stops t e w' ->
  (1 <= length stops)%nat.
Proof. destruct 1; simpl; lia. Qed.

Lemma failed_attempts_delays rqs k w stops t e w' :
  failed_attempts ChatCompletion_create wait rqs k w stops t e w' ->
  delays t = map wait (seq k (length stops - 1)).
Proof.
  induction 1 as [k w i rq answered contents w1 a e w2 Hi Hs Hcall Hfail
                 |k w i rq answered contents w1 a e1 w2 stops t e w'
                    Hi Hs Hcall Hfail Hrest IH].
  - rewrite delays_app, delays_calls. reflexivity.
  - pose proof (failed_attempts_stops _ _ _ _ _ _ _ Hrest) as Hlen.
    rewrite !delays_app, delays_calls.
    change (delays (Sleep (wait k) :: t)) with (wait k :: delays t).
    rewrite IH. simpl length.
    replace (S (length stops) - 1)%nat with (S (length stops - 1)) by lia.
    reflexivity.
Qed.

Lemma failed_attempts_issued rqs k w stops t e w' :
  failed_attempts ChatCompletion_create wait rqs k w stops t e w' ->
  issued t = concat (map (fun i => take (S i) rqs) stops).
Proof.
  assert (Hone : forall i rq w answered contents w1 (a : result completion),
             rqs !! i = Some rq ->
             served World ChatCompletion_create (take i rqs) w answered
                    contents w1 ->
             issued (calls (take i rqs) answered ++ [Call rq a])
             = take (S i) rqs).
  { intros i rq w0 answered contents w1 a Hi Hs.
    rewrite issued_app, issued_calls by (apply served_length in Hs; apply Hs).
    rewrite (take_S_r _ _ _ Hi). reflexivity. }
  induction 1 as [k w i rq answered contents w1 a e w2 Hi Hs Hcall Hfail
                 |k w i rq answered contents w1 a e1 w2 stops t e w'
                    Hi Hs Hcall Hfail Hrest IH].
  - simpl. rewrite app_nil_r. eapply Hone; eassumption.
  - rewrite issued_app. change (issued (Sleep (wait k) :: t)) with (issued t).
    rewrite IH, (Hone _ _ _ _ _ _ _ Hi Hs). reflexivity.
Qed.


Lemma attempt_stops_at i rq w answered contents w1 a w2 e :
  requests !! i = Some rq ->
  served World ChatCompletion_create (take i requests) w answered contents w1 ->
  ChatCompletion_create rq w1 = (a, w2) ->
  content_of a = Raise e ->
  body w = (Raise e, w2, calls (take i requests) answered ++ [Call rq a]).
Proof.
  intros Hi Hs Hcall Hfail.
  apply (body_served_fail World ChatCompletion_create df system_message
           batch_size model temperature max_tokens
           (take i requests) rq (drop (S i) requests)
           w answered contents w1 a w2 e); try assumption.
  symmetry. apply take_drop_middle. exact Hi.
Qed.

(** Attempts that all fail make the retry loop give up with the last
    exception, wrapped. *)
Lemma failed_attempts_run k w stops t e w' :
  failed_attempts ChatCompletion_create wait requests k w stops t e w' ->
  retry_loop World wait (length stops - 1) k body w
  = (Raise (RetryError e), w', t).
Proof.
  induction 1 as [k w i rq answered contents w1 a e w2 Hi Hs Hcall Hfail
                 |k w i rq answered contents w1 a e1 w2 stops t e w'
                    Hi Hs Hcall Hfail Hrest IH].
  - apply retry_loop_last. eapply attempt_stops_at; eassumption.
  - pose proof (failed_attempts_stops _ _ _ _ _ _ _ Hrest) as Hlen.
    simpl length.
    replace (S (length stops) - 1)%nat with (S (length stops - 1)) by lia.
    rewrite (retry_loop_again World wait body _ _ _ _ _ _
               (attempt_stops_at _ _ _ _ _ _ _ _ _ Hi Hs Hcall Hfail)).
    rewrite IH. reflexivity.
Qed.

(** A retry loop that gives up has seen every one of its attempts fail at
    the call of some batch. *)
Lemma retry_loop_failed_attempts n : forall k w err w' t,
  batch_size <> 0 ->
  retry_loop World wait n k body w = (Raise err, w', t) ->
  exists stops e,
    length stops = S n
    /\ err = RetryError e
    /\ failed_attempts ChatCompletion_create wait requests k w stops t e w'.
Proof.
  assert (Hone : forall w e w1 t1,
             batch_size <> 0 ->
             body w = (Raise e, w1, t1) ->
             exists i rq answered contents w0 a,
               requests !! i = Some rq
               /\ served World ChatCompletion_create (take i requests) w
                         answered contents w0
               /\ ChatCompletion_create rq w0 = (a, w1)
               /\ content_of a = Raise e
               /\ t1 = calls (take i requests) answered ++ [Call rq a]).
  { intros w e w1 t1 Hnz Hrun. apply body_inv in Hrun.
    destruct Hrun as [(Hz & _) | (rb & rq & ra & answered & contents & w0 & a
                                  & Hsplit & Hs & Hcall & Hfail & ->)];
      [contradiction|].
    exists (length rb), rq, answered, contents, w0, a.
    rewrite Hsplit, take_app_length.
    repeat split; try assumption.
    apply list_lookup_middle. reflexivity. }
  induction n as [|n IH]; intros k w err w' t Hnz Hrun.
  - simpl in Hrun. destruct (body w) as [[[v|e] w1] t1] eqn:Hbody; [discriminate|].
    injection Hrun as <- <- <-.
    destruct (Hone _ _ _ _ Hnz Hbody)
      as (i & rq & answered & contents & w0 & a & Hi & Hs & Hcall & Hfail & ->).
    exists [i], e. repeat split. econstructor; eassumption.
  - destruct (body w) as [[[v|e] w1] t1] eqn:Hbody.
    + rewrite (retry_loop_first_ok World wait body _ _ _ _ _ _ Hbody) in Hrun.
      discriminate.
    + rewrite (retry_loop_again World wait body _ _ _ _ _ _ Hbody) in Hrun.
      destruct (retry_loop World wait n (S k) body w1) as [[r w2] t2] eqn:Hrest.
      injection Hrun as -> <- <-.
      destruct (IH _ _ _ _ _ Hnz Hrest) as (stops & e' & Hlen & -> & Hfa).
      destruct (Hone _ _ _ _ Hnz Hbody)
        as (i & rq & answered & contents & w0 & a & Hi & Hs & Hcall & Hfail & ->).
      exists (i :: stops), e'. split; [simpl; lia|]. split; [reflexivity|].
      econstructor; eassumption.
Qed.


(** One failing attempt followed by a wait and the rest of the loop. *)
Lemma dispatch_attempt_fails n k w e w1 t1 :
  body w = (Raise e, w1, t1) ->
  retry_loop World wait (S n) k body w
  = match retry_loop World wait n (S k) body w1 with
    | (r, w2, t2) => (r, w2, t1 ++ Sleep (wait k) :: t2)
    end.
Proof. apply retry_loop_again. Qed.

(** C3, as the code has it.  The decorated function raises exactly when
    six attempts in a row fail, each at the call of some batch and with
    any error whatever its kind: no failure reaches the caller at the
    first attempt, five waits separate the six attempts, and what the
    caller gets is [RetryError] around the failure of the sixth attempt.
    Every attempt issues the requests up to the one whose call fails, so a
    call that fails every time is issued six times. *)
Theorem dispatch_retries_any_failure w err w' t :
  batch_size <> 0 ->
  (dispatch w = (Raise err, w', t)
   <-> exists stops e,
         length stops = 6%nat
         /\ err = RetryError e
         /\ failed_attempts ChatCompletion_create wait requests 1 w stops t e w')
  /\ (dispatch w = (Raise err, w', t) -> delays t = map wait (seq 1 5))
  /\ (forall stops e,
        failed_attempts ChatCompletion_create wait requests 1 w stops t e w' ->
        issued t = concat (map (fun i => take (S i) requests) stops)).
Proof.
  intros Hnz. split; [split|split]; [| | |intros stops e; apply failed_attempts_issued].
  - intros Hrun. rewrite dispatch_unfold in Hrun.
    exact (retry_loop_failed_attempts 5 1 w err w' t Hnz Hrun).
  - intros (stops & e & Hlen & -> & Hfa).
    rewrite dispatch_unfold.
    pose proof (failed_attempts_run _ _ _ _ _ _ Hfa) as Hrun.
    rewrite Hlen in Hrun. exact Hrun.
  - intros Hrun. rewrite dispatch_unfold in Hrun.
    destruct (retry_loop_failed_attempts 5 1 w err w' t Hnz Hrun)
      as (stops & e & Hlen & _ & Hfa).
    rewrite (failed_attempts_delays _ _ _ _ _ _ _ Hfa), Hlen. reflexivity.
Qed.

(** C1, as the code has it.  The decorator wraps the whole batch function:
    when the call of one batch fails on the first two attempts and is
    answered on the third, each failure is followed by a wait and the loop
    starts again from the first batch.  The batches before the failing one
    are called once per attempt, the batches after it once; the caller
    receives one response per batch, after exactly two waits. *)
Theorem dispatch_retry_restarts_loop
    before batch after w0 answered1 contents1 w1 e1 w1'
    answered2 contents2 w2 e2 w2' answered3 contents3 w3 :
  batches df batch_size = before ++ batch :: after ->
  served World ChatCompletion_create (map request_for before) w0
         answered1 contents1 w1 ->
  ChatCompletion_create (request_for batch) w1 = (Raise e1, w1') ->
  served World ChatCompletion_create (map request_for before) w1'
         answered2 contents2 w2 ->
  ChatCompletion_create (request_for batch) w2 = (Raise e2, w2') ->
  served World ChatCompletion_create
         (map request_for (before ++ batch :: after)) w2'
         answered3 contents3 w3 ->
  dispatch w0
  = (Ok contents3, w3,
     calls (map request_for before) answered1
       ++ [Call (request_for batch) (Raise e1); Sleep (wait 1)]
       ++ calls (map request_for before) answered2
       ++ [Call (request_for batch) (Raise e2); Sleep (wait 2)]
       ++ calls (map request_for (before ++ batch :: after)) answered3)
  /\ length contents3 = length (batches df batch_size).
Proof.
  intros Hsplit Hs1 Hf1 Hs2 Hf2 Hs3.
  assert (Hnz : batch_size <> 0).
  { intros Hz. unfold batches in Hsplit. rewrite Hz in Hsplit.
    destruct before; discriminate. }
  assert (Hrq : map request_for (batches df batch_size)
                = map request_for before ++ request_for batch
                    :: map request_for after).
  { rewrite Hsplit, map_app. reflexivity. }
  pose proof (body_served_fail World ChatCompletion_create df system_message
                batch_size model temperature max_tokens _ _ _ _ _ _ _ _ _ e1
                Hrq Hs1 Hf1 eq_refl) as H1.
  pose proof (body_served_fail World ChatCompletion_create df system_message
                batch_size model temperature max_tokens _ _ _ _ _ _ _ _ _ e2
                Hrq Hs2 Hf2 eq_refl) as H2.
  rewrite <- Hsplit in Hs3.
  pose proof (body_served World ChatCompletion_create df system_message
                batch_size model temperature max_tokens _ _ _ _
                Hnz Hs3) as H3.
  split.
  - rewrite dispatch_unfold.
    rewrite (dispatch_attempt_fails _ _ _ _ _ _ H1).
    rewrite (dispatch_attempt_fails _ _ _ _ _ _ H2).
    rewrite (retry_loop_first_ok _ _ _ _ _ _ _ _ _ H3).
    rewrite Hsplit, <- !app_assoc. reflexivity.
  - apply served_length in Hs3. rewrite length_map in Hs3. apply Hs3.
Qed.

(** C9.  With [batch_size = 0] every attempt of the body raises
    [ValueError] at the loop head, before any call: the decorated function
    issues no call at all and ends in an exception.  With a negative
    [batch_size] the range is empty: no call is issued and the empty list
    is returned, whatever rows the frame holds. *)
Theorem dispatch_needs_positive_batch_size w :
  (batch_size = 0 ->
   body w = (Raise ValueError, w, [])
   /\ exists t, dispatch w = (Raise (RetryError ValueError), w, t)
               /\ issued t = [])
  /\ (batch_size < 0 -> dispatch w = (Ok [], w, [])).
Proof.
  split.
  - intros Hz. pose proof (body_zero World ChatCompletion_create df
                            system_message batch_size model temperature
                            max_tokens w Hz) as H0.
    split; [exact H0|].
    eexists. split.
    + rewrite dispatch_unfold.
      rewrite !(dispatch_attempt_fails _ _ _ _ _ _ H0).
      rewrite (retry_loop_last _ _ _ _ _ _ _ _ H0). reflexivity.
    + reflexivity.
  - intros Hneg. rewrite dispatch_unfold.
    apply retry_loop_first_ok.
    rewrite body_unfold, range_negative_step by (unfold len; lia).
    reflexivity.
Qed.

End Dispatcher.

(** ** The requests of the two helpers *)

Lemma append_cons (c : ascii) (s1 s2 : string) :
  String c s1 +:+ s2 = String c (s1 +:+ s2).
Proof. reflexivity. Qed.

Lemma append_nil_l (s : string) : "" +:+ s = s.
Proof. reflexivity. Qed.

Lemma append_assoc (s1 s2 s3 : string) : (s1 +:+ s2) +:+ s3 = s1 +:+ (s2 +:+ s3).
Proof.
  induction s1 as [|c s1 IH]; [reflexivity|].
  rewrite !append_cons, IH. reflexivity.
Qed.

Lemma append_nil_r (s : string) : s +:+ "" = s.
Proof.
  induction s as [|c s IH]; [reflexivity|].
  rewrite append_cons, IH. reflexivity.
Qed.

Lemma user_message_fold (batch : list string) : forall acc,
  fold_left (fun user_message row => user_message +:+ (row +:+ delimiter))
            batch acc
  = acc +:+ String.concat "" (map (fun row => row +:+ delimiter) batch).
Proof.
  induction batch as [|row batch IH]; intros acc; simpl.
  - symmetry. apply append_nil_r.
  - rewrite IH, append_assoc. f_equal.
    destruct batch as [|row' batch]; simpl; [rewrite append_nil_r|]; reflexivity.
Qed.

Lemma concat_terminated (batch : list string) :
  batch <> [] ->
  String.concat "" (map (fun row => row +:+ delimiter) batch)
  = String.concat delimiter batch +:+ delimiter.
Proof.
  induction batch as [|row batch IH]; intros Hne; [contradiction|].
  destruct batch as [|row' batch]; [reflexivity|].
  change (String.concat "" (map (fun r => r +:+ delimiter) (row :: row' :: batch)))
    with ((row +:+ delimiter)
            +:+ String.concat "" (map (fun r => r +:+ delimiter) (row' :: batch))).
  rewrite IH by discriminate.
  change (String.concat delimiter (row :: row' :: batch))
    with (row +:+ delimiter +:+ String.concat delimiter (row' :: batch)).
  rewrite !append_assoc. reflexivity.
Qed.

(** C5, as the code has it.  The request of a batch has exactly two
    messages, the system instruction and then one user message; the user
    message is every row followed by the delimiter, which for a non-empty
    batch is the rows joined by ["####"] and one more ["####"] after the
    last row. *)
Theorem batch_request_two_messages
    (system_message model : string) (temperature : Q) (max_tokens : Z)
    (batch : list string) :
  batch <> [] ->
  messages (batch_request system_message model temperature max_tokens batch)
  = [ {| role := "system"; content := system_message |};
      {| role := "user";
         content := String.concat "####" batch +:+ "####" |} ]
  /\ user_message_of batch
     = String.concat "" (map (fun row => row +:+ "####") batch).
Proof.
  intros Hne.
  assert (Hfold : user_message_of batch
                  = String.concat "" (map (fun row => row +:+ "####") batch)).
  { unfold user_message_of. rewrite user_message_fold. reflexivity. }
  split; [|exact Hfold].
  unfold batch_request, batch_messages. simpl. rewrite Hfold.
  pose proof (concat_terminated batch Hne) as Hjoin. unfold delimiter in Hjoin.
  rewrite Hjoin. reflexivity.
Qed.

Section Defaults.

Variable World : Type.
Variable ChatCompletion_create : request -> World -> result completion * World.
Variable uniform : nat -> Q.

Lemma get_completion_from_messages_unfold msgs model temperature max_tokens w :
  get_completion_from_messages World ChatCompletion_create msgs model
                               temperature max_tokens w
  = match ChatCompletion_create
            {| model := model; messages := msgs;
               temperature := temperature; max_tokens := max_tokens |} w with
    | (a, w1) =>
        (content_of a, w1,
         [Call {| model := model; messages := msgs;
                  temperature := temperature; max_tokens := max_tokens |} a])
    end.
Proof.
  unfold get_completion_from_messages, bind, create, lift.
  destruct (ChatCompletion_create _ w) as [[response|e] w1]; reflexivity.
Qed.

(** C7.  Called with the default parameters, the single-message helper
    issues one request with temperature 0 and [max_tokens] 150 and returns
    the content of the first choice of the answer; the batch helper issues
    only requests with temperature 0 and [max_tokens] 300, and the list it
    returns has one string per batch, in order: the content of the first
    choice of the answer that the last attempt got for that batch. *)
Theorem default_parameters_and_first_choice :
  (forall msgs w res w' t,
     get_completion_from_messages_default World ChatCompletion_create msgs w
     = (res, w', t) ->
     exists rq a,
       t = [Call rq a]
       /\ messages rq = msgs
       /\ temperature rq = 0%Q /\ max_tokens rq = 150
       /\ forall response c rest,
            a = Ok response -> choices response = c :: rest ->
            res = Ok (content (message c)))
  /\ (forall df system_message batch_size w res w' t,
        get_completion_from_messages_batch_default World ChatCompletion_create
          uniform df system_message batch_size w = (res, w', t) ->
        Forall (fun rq => temperature rq = 0%Q /\ max_tokens rq = 300)
               (issued t)
        /\ forall rs, res = Ok rs ->
             exists earlier answered,
               t = earlier
                     ++ calls (map (batch_request system_message default_model
                                                  0 300)
                                   (batches df batch_size)) answered
               /\ length answered = length (batches df batch_size)
               /\ length rs = length (batches df batch_size)
               /\ Forall2 (fun response r =>
                             exists c rest, choices response = c :: rest
                                            /\ r = content (message c))
                          answered rs).
Proof.
  split.
  - intros msgs w res w' t Hrun.
    unfold get_completion_from_messages_default in Hrun.
    rewrite get_completion_from_messages_unfold in Hrun.
    destruct (ChatCompletion_create _ w) as [a w1].
    injection Hrun as <- <- <-.
    eexists _, a. split; [reflexivity|]. repeat split.
    intros response c rest -> Hchoices. simpl.
    apply first_content_spec. eauto.
  - intros df system_message batch_size w res w' t Hrun.
    unfold get_completion_from_messages_batch_default in Hrun. split.
    + eapply Forall_impl; [eapply dispatch_issued; exact Hrun|].
      intros rq (batch & _ & ->). split; reflexivity.
    + intros rs ->. apply dispatch_ok in Hrun.
      destruct Hrun as (wl & earlier & answered & Hs & ->).
      exists earlier, answered. split; [reflexivity|].
      pose proof (served_length _ _ _ _ _ _ _ Hs) as [Hla Hlc].
      rewrite length_map in Hla, Hlc.
      split; [exact Hla|]. split; [exact Hlc|].
      apply served_contents in Hs.
      eapply Forall2_impl; [exact Hs|].
      intros response r Hfc. apply first_content_spec. exact Hfc.
Qed.

End Defaults.

(** ** The backoff window *)

Lemma wait_exponential_bounds (n : nat) :
  30 <= Tenacity.wait_exponential 1 30 60 n <= 60.
Proof. unfold Tenacity.wait_exponential. lia. Qed.

Lemma wait_exponential_mono (n : nat) :
  Tenacity.wait_exponential 1 30 60 n <= Tenacity.wait_exponential 1 30 60 (S n).
Proof.
  unfold Tenacity.wait_exponential.
  assert (2 ^ (Z.of_nat n - 1) <= 2 ^ (Z.of_nat (S n) - 1)).
  { destruct n as [|n].
    - simpl. lia.
    - apply Z.pow_le_mono_r; lia. }
  lia.
Qed.

Lemma wait_exponential_ceiling (n : nat) :
  (7 <= n)%nat -> Tenacity.wait_exponential 1 30 60 n = 60.
Proof.
  intros Hn. unfold Tenacity.wait_exponential.
  assert (2 ^ 6 <= 2 ^ (Z.of_nat n - 1)) by (apply Z.pow_le_mono_r; lia).
  change (2 ^ 6) with 64 in *. lia.
Qed.

(** After each of the five attempts that can be followed by a wait, the
    upper end of the window is still 30. *)
Remark wait_exponential_first_five (n : nat) :
  (n <= 5)%nat -> Tenacity.wait_exponential 1 30 60 n = 30.
Proof.
  intros Hn. unfold Tenacity.wait_exponential.
  assert (2 ^ (Z.of_nat n - 1) <= 2 ^ 4).
  { destruct n as [|n]; [simpl; lia|]. apply Z.pow_le_mono_r; lia. }
  change (2 ^ 4) with 16 in *. lia.
Qed.

Lemma backoff_bounds (uniform : nat -> Q) (n : nat) :
  (0 <= uniform n)%Q -> (uniform n <= 1)%Q ->
  (30 <= backoff uniform n)%Q
  /\ (backoff uniform n <= inject_Z (Tenacity.wait_exponential 1 30 60 n))%Q
  /\ (backoff uniform n <= 60)%Q.
Proof.
  intros Hu0 Hu1.
  pose proof (wait_exponential_bounds n) as [Hlo Hhi].
  unfold backoff, Tenacity.wait_random_exponential.
  set (h := Tenacity.wait_exponential 1 30 60 n) in *.
  assert (Hq_lo : (inject_Z 30 <= inject_Z h)%Q) by (rewrite <- Zle_Qle; exact Hlo).
  assert (Hq_hi : (inject_Z h <= inject_Z 60)%Q) by (rewrite <- Zle_Qle; exact Hhi).
  change (inject_Z 30) with 30%Q in *. change (inject_Z 60) with 60%Q in *.
  split; [nra|]. split; nra.
Qed.

Section Backoff.

Variable World : Type.
Variable ChatCompletion_create : request -> World -> result completion * World.
Variable uniform : nat -> Q.

(** C6.  With draws between 0 and 1, every delay that a run of the
    decorated batch helper sleeps, and the delay of the backoff policy
    after any attempt number, lies between 30 and 60.  The delay is drawn
    below the upper end of a window that never shrinks from one attempt to
    the next and never exceeds 60: it is 30 up to the fifth attempt, 32 at
    the sixth and 60 from the seventh on. *)
Theorem backoff_between_30_and_60
    (df : list string) (system_message : string) (batch_size : Z)
    (model : string) (temperature : Q) (max_tokens : Z) w res w' t :
  (forall n, (0 <= uniform n)%Q /\ (uniform n <= 1)%Q) ->
  get_completion_from_messages_batch World ChatCompletion_create uniform df
    system_message batch_size model temperature max_tokens w = (res, w', t) ->
  Forall (fun d => (30 <= d)%Q /\ (d <= 60)%Q) (delays t)
  /\ (forall n,
        (30 <= backoff uniform n)%Q
        /\ (backoff uniform n
            <= inject_Z (Tenacity.wait_exponential 1 30 60 n))%Q
        /\ (backoff uniform n <= 60)%Q)
  /\ (forall n, Tenacity.wait_exponential 1 30 60 n
                <= Tenacity.wait_exponential 1 30 60 (S n))
  /\ (forall n, (n <= 5)%nat -> Tenacity.wait_exponential 1 30 60 n = 30)
  /\ Tenacity.wait_exponential 1 30 60 6 = 32
  /\ (forall n, (7 <= n)%nat -> Tenacity.wait_exponential 1 30 60 n = 60).
Proof.
  intros Hu Hrun.
  assert (Hall : forall n,
             (30 <= backoff uniform n)%Q
             /\ (backoff uniform n
                 <= inject_Z (Tenacity.wait_exponential 1 30 60 n))%Q
             /\ (backoff uniform n <= 60)%Q).
  { intros n. destruct (Hu n) as [H0 H1]. apply backoff_bounds; assumption. }
  split; [|split; [exact Hall|split; [exact wait_exponential_mono|split;
           [exact wait_exponential_first_five|split;
             [reflexivity | exact wait_exponential_ceiling]]]]].
  assert (Hdelays : exists j, delays t = map (backoff uniform) (seq 1 j)).
  { unfold get_completion_from_messages_batch, retry in Hrun.
    change (6 - 1)%nat with 5%nat in Hrun.
    destruct res as [rs|err].
    - apply (retry_loop_ok World (backoff uniform) _
               (body_delays World ChatCompletion_create df system_message
                  batch_size model temperature max_tokens)) in Hrun.
      destruct Hrun as (wl & earlier & tl & j & _ & _ & _ & Hd). eauto.
    - apply (retry_loop_raise World (backoff uniform) _
               (body_delays World ChatCompletion_create df system_message
                  batch_size model temperature max_tokens)) in Hrun.
      destruct Hrun as (e & wl & earlier & tl & _ & _ & _ & Hd). eauto. }
  destruct Hdelays as [j ->].
  apply Forall_forall. intros d Hin.
  apply list_elem_of_In, in_map_iff in Hin. destruct Hin as (n & <- & _).
  destruct (Hall n) as (Hlo & _ & Hhi). split; assumption.
Qed.

End Backoff.

(** ** Distinct labels *)

(** C8.  On the labels of the spec's example the cells give the set
    [{"tech", "space"}]; in general the set holds exactly the lower-casings
    of the labels that split into one word, so two lists with the same
    labels, in any order and with any repetitions, give the same set. *)
Theorem unique_topics_lowercased_single_words :
  unique_topics ["Tech"; "tech"; "Space Policy"; "space"] = {[ "tech"; "space" ]}
  /\ (forall (all_topics : list string) (x : string),
        x ∈ unique_topics all_topics
        <-> exists s, s ∈ all_topics /\ len (split s) = 1 /\ x = lower s)
  /\ (forall all_topics all_topics' : list string,
        (forall s, s ∈ all_topics <-> s ∈ all_topics') ->
        unique_topics all_topics = unique_topics all_topics').
Proof.
  assert (Hmem : forall (all_topics : list string) (x : string),
             x ∈ unique_topics all_topics
             <-> exists s, s ∈ all_topics /\ len (split s) = 1 /\ x = lower s).
  { intros all_topics x. unfold unique_topics, single_word_topics.
    rewrite elem_of_list_to_set.
    change (map lower) with (fmap (M:=list) lower).
    rewrite list_elem_of_fmap. split.
    - intros (s & -> & Hin). apply list_elem_of_filter in Hin.
      destruct Hin as [Hone Hin]. eauto.
    - intros (s & Hin & Hone & ->). exists s. split; [reflexivity|].
      apply list_elem_of_filter. split; assumption. }
  split; [vm_compute; reflexivity|]. split; [exact Hmem|].
  intros l l' Hsame. apply set_eq. intros x. rewrite !Hmem.
  split; intros (s & Hin & Hrest); exists s; (split; [apply Hsame; exact Hin | exact Hrest]).
Qed.

(** ** Bracket repair *)

Lemma get_last (r : string) : String.get (String.length r - 1) r = last_char r.
Proof.
  induction r as [|c r IH]; [reflexivity|].
  destruct r as [|c' r]; [reflexivity|].
  replace (String.length (String c (String c' r)) - 1)%nat
    with (S (String.length r)) by (simpl; lia).
  replace (String.length (String c' r) - 1)%nat
    with (String.length r) in IH by (simpl; lia).
  exact IH.
Qed.

Lemma str_index_last (r : string) :
  str_index r (str_len r - 1)
  = match last_char r with
    | Some c => Ok c
    | None => Raise IndexError
    end.
Proof.
  destruct r as [|c r]; [reflexivity|].
  rewrite <- get_last. unfold str_index, str_len.
  set (n := String.length (String c r)).
  assert (Hn : (1 <= n)%nat) by (subst n; simpl; lia).
  destruct (Z.ltb_spec (Z.of_nat n - 1) 0); [lia|].
  destruct (Z.leb_spec 0 (Z.of_nat n - 1)); [|lia].
  destruct (Z.ltb_spec (Z.of_nat n - 1) (Z.of_nat n)); [|lia].
  simpl. replace (Z.to_nat (Z.of_nat n - 1)) with (n - 1)%nat by lia.
  reflexivity.
Qed.

Lemma last_char_nonempty (r : string) : r <> "" -> exists c, last_char r = Some c.
Proof.
  induction r as [|c r IH]; intros Hne; [contradiction|].
  destruct r as [|c' r]; [exists c; reflexivity|].
  destruct IH as [d Hd]; [discriminate|]. exists d. exact Hd.
Qed.

Lemma last_char_append (r : string) (c : ascii) :
  last_char (r +:+ String c "") = Some c.
Proof.
  induction r as [|d r IH]; [reflexivity|].
  rewrite append_cons.
  destruct (r +:+ String c "") eqn:Happ; [discriminate|].
  exact IH.
Qed.

Lemma close_bracket_ends (r : string) :
  r <> "" -> ends_with_bracket (close_bracket r).
Proof.
  intros Hne. destruct (last_char_nonempty r Hne) as [c Hc].
  unfold close_bracket, ends_with_bracket. rewrite Hc.
  destruct (Ascii.eqb_spec c closing_bracket) as [->|_]; [exact Hc|].
  apply last_char_append.
Qed.

Lemma close_bracket_fixed (r : string) :
  ends_with_bracket r -> close_bracket r = r.
Proof.
  unfold close_bracket, ends_with_bracket. intros ->.
  rewrite Ascii.eqb_refl. reflexivity.
Qed.

Lemma close_bracket_cases (r : string) :
  r <> "" ->
  (ends_with_bracket r /\ close_bracket r = r)
  \/ (~ ends_with_bracket r /\ close_bracket r = r +:+ "]").
Proof.
  intros Hne. destruct (last_char_nonempty r Hne) as [c Hc].
  unfold close_bracket, ends_with_bracket. rewrite Hc.
  destruct (Ascii.eqb_spec c closing_bracket) as [->|Hneq].
  - left. split; reflexivity.
  - right. split; [congruence | reflexivity].
Qed.

(** The loop invariant: the elements already visited are repaired, the
    others are as they were. *)
Lemma repair_loop_all (rest : list string) : forall visited,
  Forall (fun r => r <> "") rest ->
  repair_loop (length rest) (length visited) (visited ++ rest)
  = (visited ++ map close_bracket rest, None).
Proof.
  induction rest as [|r rest IH]; intros visited Hne; [reflexivity|].
  apply Forall_cons in Hne. destruct Hne as [Hr Hne].
  simpl. rewrite list_lookup_middle by reflexivity.
  rewrite str_index_last. destruct (last_char_nonempty r Hr) as [c Hc].
  unfold close_bracket. rewrite Hc.
  destruct (Ascii.eqb c closing_bracket).
  - specialize (IH (visited ++ [r]) Hne).
    rewrite length_app, <- !app_assoc in IH. simpl in IH.
    replace (length visited + 1)%nat with (S (length visited)) in IH by lia.
    exact IH.
  - replace (length visited) with (length visited + 0)%nat at 2 by lia.
    rewrite alter_app_r. simpl.
    specialize (IH (visited ++ [r +:+ "]"]) Hne).
    rewrite length_app, <- !app_assoc in IH. simpl in IH.
    replace (length visited + 1)%nat with (S (length visited)) in IH by lia.
    exact IH.
Qed.

Lemma repair_loop_empty_string (before : list string) : forall visited after n,
  Forall (fun r => r <> "") before ->
  repair_loop (length before + S n) (length visited)
              (visited ++ before ++ "" :: after)
  = (visited ++ map close_bracket before ++ "" :: after, Some IndexError).
Proof.
  induction before as [|r before IH]; intros visited after n Hne.
  - simpl. rewrite list_lookup_middle by reflexivity. reflexivity.
  - apply Forall_cons in Hne. destruct Hne as [Hr Hne].
    simpl. rewrite list_lookup_middle by reflexivity.
    rewrite str_index_last. destruct (last_char_nonempty r Hr) as [c Hc].
    unfold close_bracket at 1. rewrite Hc.
    destruct (Ascii.eqb c closing_bracket).
    + specialize (IH (visited ++ [r]) after n Hne).
      rewrite length_app, <- !app_assoc in IH. simpl in IH.
      replace (length visited + 1)%nat with (S (length visited)) in IH by lia.
      exact IH.
    + replace (length visited) with (length visited + 0)%nat at 2 by lia.
      rewrite alter_app_r. simpl.
      specialize (IH (visited ++ [r +:+ "]"]) after n Hne).
      rewrite length_app, <- !app_assoc in IH. simpl in IH.
      replace (length visited + 1)%nat with (S (length visited)) in IH by lia.
      exact IH.
Qed.

(** C10.  On a list of non-empty strings the cell appends ["]"] to exactly
    the elements that do not end with it, after which every element ends
    with ["]"] and running the cell again changes nothing; at an empty
    string the cell raises [IndexError] and leaves that string as it is. *)
Theorem bracket_repair_idempotent :
  (forall responses : list string,
     Forall (fun r => r <> "") responses ->
     exists repaired,
       repair responses = (repaired, None)
       /\ Forall2 (fun r r' => (ends_with_bracket r /\ r' = r)
                               \/ (~ ends_with_bracket r /\ r' = r +:+ "]"))
                  responses repaired
       /\ Forall ends_with_bracket repaired
       /\ repair repaired = (repaired, None))
  /\ (forall before after : list string,
        Forall (fun r => r <> "") before ->
        exists repaired,
          length repaired = length before
          /\ repair (before ++ "" :: after)
             = (repaired ++ "" :: after, Some IndexError)).
Proof.
  split.
  - intros responses Hne. exists (map close_bracket responses).
    assert (Hends : Forall ends_with_bracket (map close_bracket responses)).
    { apply Forall_map. eapply Forall_impl; [exact Hne|].
      intros r Hr. apply close_bracket_ends. exact Hr. }
    split; [exact (repair_loop_all responses [] Hne)|].
    split.
    { clear Hends. induction Hne as [|r rest Hr Hrest IH]; constructor.
      - destruct (close_bracket_cases r Hr) as [[He Hc]|[He Hc]]; rewrite Hc; auto.
      - exact IH. }
    split; [exact Hends|].
    assert (Hne' : Forall (fun r => r <> "") (map close_bracket responses)).
    { eapply Forall_impl; [exact Hends|]. intros r Hr ->. discriminate. }
    pose proof (repair_loop_all (map close_bracket responses) [] Hne') as Hagain.
    simpl in Hagain. unfold repair. rewrite Hagain. f_equal.
    rewrite map_map. apply map_ext_in. intros r Hin.
    apply close_bracket_fixed. apply close_bracket_ends.
    rewrite Forall_forall in Hne. apply Hne. apply list_elem_of_In. exact Hin.
  - intros before after Hne. exists (map close_bracket before).
    split; [apply length_map|].
    unfold repair. rewrite length_app. simpl.
    exact (repair_loop_empty_string before [] after (length after) Hne).
Qed.

(** * The cells on concrete inputs *)

Import Scripted.

Lemma dispatch_one_call_per_batch_witness :
  concat (batches ["a"; "b"; "c"; "d"; "e"] 2) = ["a"; "b"; "c"; "d"; "e"]
  /\ length (batches ["a"; "b"; "c"; "d"; "e"] 2) = 3%nat
  /\ issued echo_run.2
     = map (batch_request "sys" default_model 0 300)
           (batches ["a"; "b"; "c"; "d"; "e"] 2).
Proof.
  destruct (dispatch_one_call_per_batch nat (service always_echo) no_draw
              ["a"; "b"; "c"; "d"; "e"] "sys" 2 default_model 0 300 0%nat
              echo_run.1.1 echo_run.1.2 echo_run.2)
    as (Hconcat & Hlen & Hfree & _).
  - lia.
  - vm_compute. reflexivity.
  - split; [exact Hconcat|]. split; [exact Hlen|].
    apply Hfree.
    vm_compute. repeat (constructor; [eexists; reflexivity|]). constructor.
Defined.

(** C2, as the spec states it, fails: in [two_failures_run] the frame has
    two rows and the batch size is one, so [ceil(N / B)] is two, and the
    function returns normally after issuing six calls, the request of the
    first batch three times. *)
Lemma dispatch_issues_more_calls_after_failures :
  two_failures_run.1.1 = Ok ["a####"; "b####"]
  /\ Z.to_nat (ceil_div (len ["a"; "b"]) 1) = 2%nat
  /\ length (issued two_failures_run.2) = 6%nat
  /\ length (issued two_failures_run.2) <> Z.to_nat (ceil_div (len ["a"; "b"]) 1)
  /\ issued two_failures_run.2
     <> map (batch_request "sys" default_model 0 300) (batches ["a"; "b"] 1).
Proof.
  assert (Hlen : length (issued two_failures_run.2) = 6%nat)
    by (vm_compute; reflexivity).
  split; [vm_compute; reflexivity|]. split; [reflexivity|].
  split; [exact Hlen|]. split; [rewrite Hlen; discriminate|].
  intros Heq. apply (f_equal (@length request)) in Heq.
  rewrite Hlen in Heq. discriminate.
Qed.

Import Scenarios.



Lemma dispatch_retries_any_failure_witness :
  exists stops e,
    length stops = 6%nat
    /\ RetryError AuthenticationError = RetryError e
    /\ failed_attempts (service second_batch_fails) (backoff half_draw)
         (map (batch_request "sys" default_model 0 300)
              (batches ["a"; "b"; "c"] 1))
         1 0%nat stops second_batch_fails_run.2 e 12%nat.
Proof.
  apply (proj1 (proj1 (dispatch_retries_any_failure
                         nat (service second_batch_fails) half_draw
                         ["a"; "b"; "c"] "sys" 1 default_model 0 300 0%nat
                         (RetryError AuthenticationError) 12%nat
                         second_batch_fails_run.2 ltac:(lia)))).
  vm_compute. reflexivity.
Defined.

Lemma dispatch_retry_restarts_loop_witness :
  two_failures_run
  = (Ok ["a####"; "b####"], 6%nat,
     calls [batch_request "sys" default_model 0 300 ["a"]] [reply "a####"]
       ++ [Call (batch_request "sys" default_model 0 300 ["b"])
                (Raise RateLimitError);
           Sleep (backoff no_draw 1)]
       ++ calls [batch_request "sys" default_model 0 300 ["a"]] [reply "a####"]
       ++ [Call (batch_request "sys" default_model 0 300 ["b"])
                (Raise RateLimitError);
           Sleep (backoff no_draw 2)]
       ++ calls [batch_request "sys" default_model 0 300 ["a"];
                 batch_request "sys" default_model 0 300 ["b"]]
                [reply "a####"; reply "b####"])
  /\ length ["a####"; "b####"] = length (batches ["a"; "b"] 1).
Proof.
  apply (dispatch_retry_restarts_loop
           nat (service (failing_at [1%nat; 3%nat] RateLimitError)) no_draw
           ["a"; "b"] "sys" 1 default_model 0 300
           [["a"]] ["b"] []
           0%nat [reply "a####"] ["a####"] 1%nat RateLimitError 2%nat
           [reply "a####"] ["a####"] 3%nat RateLimitError 4%nat
           [reply "a####"; reply "b####"] ["a####"; "b####"] 6%nat).
  - reflexivity.
  - repeat econstructor.
  - reflexivity.
  - repeat econstructor.
  - reflexivity.
  - repeat econstructor.
Defined.

(** C1, as the spec states it, fails: in [two_failures_run] the call of
    the second batch fails twice and is answered the third time, and the
    call of the first batch is issued three times, not once. *)
Lemma dispatch_reissues_earlier_batches :
  answers_to (fun rq => String.eqb (user_content rq) "b####") two_failures_run.2
  = [Raise RateLimitError; Raise RateLimitError; Ok (reply "b####")]
  /\ two_failures_run.1.1 = Ok ["a####"; "b####"]
  /\ length (delays two_failures_run.2) = 2%nat
  /\ times_issued "a####" two_failures_run.2 = 3%nat
  /\ times_issued "a####" two_failures_run.2 <> 1%nat.
Proof.
  assert (H3 : times_issued "a####" two_failures_run.2 = 3%nat)
    by (vm_compute; reflexivity).
  repeat split; try (vm_compute; reflexivity); try exact H3.
  rewrite H3. discriminate.
Qed.

(** C3, as the spec states it, fails: an authentication error is not
    transient, yet the call that raises it is issued six times and the
    caller does not get the error itself but [RetryError] around it. *)
Lemma auth_failure_is_retried_and_wrapped :
  transient AuthenticationError = false
  /\ auth_failure_run.1.1 = Raise (RetryError AuthenticationError)
  /\ auth_failure_run.1.1 <> Raise AuthenticationError
  /\ length (issued auth_failure_run.2) = 6%nat
  /\ length (issued auth_failure_run.2) <> 1%nat
  /\ length (delays auth_failure_run.2) = 5%nat.
Proof.
  assert (Hres : auth_failure_run.1.1 = Raise (RetryError AuthenticationError))
    by (vm_compute; reflexivity).
  assert (Hlen : length (issued auth_failure_run.2) = 6%nat)
    by (vm_compute; reflexivity).
  split; [reflexivity|]. split; [exact Hres|].
  split; [rewrite Hres; discriminate|]. split; [exact Hlen|].
  split; [rewrite Hlen; discriminate | vm_compute; reflexivity].
Qed.

Lemma batch_request_two_messages_witness :
  messages (batch_request "sys" default_model 0 300 ["a"; "b"])
  = [ {| role := "system"; content := "sys" |};
      {| role := "user"; content := String.concat "####" ["a"; "b"] +:+ "####" |} ]
  /\ user_message_of ["a"; "b"]
     = String.concat "" (map (fun row => row +:+ "####") ["a"; "b"]).
Proof.
  apply (batch_request_two_messages "sys" default_model 0 300 ["a"; "b"]).
  discriminate.
Defined.

(** C5, as the spec states it, fails: the user message of the batch
    ["a", "b"] is ["a####b####"], not the join ["a####b"]; the delimiter
    also follows the last row. *)
Lemma user_message_ends_with_delimiter :
  messages (batch_request "sys" default_model 0 300 ["a"; "b"])
  = [ {| role := "system"; content := "sys" |};
      {| role := "user"; content := "a####b####" |} ]
  /\ String.concat "####" ["a"; "b"] = "a####b"
  /\ messages (batch_request "sys" default_model 0 300 ["a"; "b"])
     <> [ {| role := "system"; content := "sys" |};
          {| role := "user"; content := String.concat "####" ["a"; "b"] |} ].
Proof.
  split; [reflexivity|]. split; [reflexivity|].
  vm_compute. discriminate.
Qed.

Lemma backoff_between_30_and_60_witness :
  Forall (fun d => (30 <= d)%Q /\ (d <= 60)%Q) (delays two_waits_run.2)
  /\ length (delays two_waits_run.2) = 2%nat
  /\ (30 <= backoff half_draw 3)%Q /\ (backoff half_draw 3 <= 60)%Q.
Proof.
  destruct (backoff_between_30_and_60
              nat (service (failing_at [1%nat; 3%nat] RateLimitError)) half_draw
              ["a"; "b"] "sys" 1 default_model 0 300 0%nat
              two_waits_run.1.1 two_waits_run.1.2 two_waits_run.2)
    as (Hdelays & Hall & _).
  - intros n. unfold half_draw, Qle. simpl. lia.
  - vm_compute. reflexivity.
  - destruct (Hall 3%nat) as (Hlo & _ & Hhi).
    split; [exact Hdelays|]. split; [vm_compute; reflexivity|].
    split; assumption.
Defined.

Lemma default_parameters_and_first_choice_witness :
  (exists rq a,
     [Call {| model := "gpt-3.5-turbo";
              messages := [ {| role := "user"; content := "hello" |} ];
              temperature := 0; max_tokens := 150 |}
           (Ok (reply "hello"))] = [Call rq a]
     /\ messages rq = [ {| role := "user"; content := "hello" |} ]
     /\ temperature rq = 0%Q /\ max_tokens rq = 150
     /\ forall response c rest,
          a = Ok response -> choices response = c :: rest ->
          Ok "hello" = Ok (content (message c)))
  /\ Forall (fun rq => temperature rq = 0%Q /\ max_tokens rq = 300)
            (issued echo_run.2)
  /\ exists earlier answered,
       echo_run.2
       = earlier ++ calls (map (batch_request "sys" default_model 0 300)
                               (batches ["a"; "b"; "c"; "d"; "e"] 2)) answered
       /\ length answered = length (batches ["a"; "b"; "c"; "d"; "e"] 2)
       /\ length ["a####b####"; "c####d####"; "e####"]
          = length (batches ["a"; "b"; "c"; "d"; "e"] 2)
       /\ Forall2 (fun response r =>
                     exists c rest, choices response = c :: rest
                                    /\ r = content (message c))
                  answered ["a####b####"; "c####d####"; "e####"].
Proof.
  destruct (default_parameters_and_first_choice nat (service always_echo) no_draw)
    as [Hsingle Hbatch].
  split.
  - apply (Hsingle [ {| role := "user"; content := "hello" |} ] 0%nat
                   (Ok "hello") 1%nat).
    reflexivity.
  - destruct (Hbatch ["a"; "b"; "c"; "d"; "e"] "sys" 2 0%nat
                     echo_run.1.1 echo_run.1.2 echo_run.2) as [Hrq Hres].
    + vm_compute. reflexivity.
    + split; [exact Hrq|].
      apply (Hres ["a####b####"; "c####d####"; "e####"]).
      vm_compute. reflexivity.
Defined.

Lemma unique_topics_lowercased_single_words_witness :
  unique_topics ["Tech"; "space"] = unique_topics ["space"; "Tech"; "Tech"].
Proof.
  apply (proj2 (proj2 unique_topics_lowercased_single_words)
               ["Tech"; "space"] ["space"; "Tech"; "Tech"]).
  intros s. rewrite !elem_of_cons, !elem_of_nil. tauto.
Defined.

Lemma dispatch_needs_positive_batch_size_witness :
  (exists t,
     get_completion_from_messages_batch nat (service always_echo) no_draw
       ["a"; "b"] "sys" 0 default_model 0 300 0%nat
     = (Raise (RetryError ValueError), 0%nat, t) /\ issued t = [])
  /\ get_completion_from_messages_batch nat (service always_echo) no_draw
       ["a"; "b"] "sys" (-1) default_model 0 300 0%nat
     = (Ok [], 0%nat, []).
Proof.
  split.
  - apply (proj1 (dispatch_needs_positive_batch_size
                    nat (service always_echo) no_draw
                    ["a"; "b"] "sys" 0 default_model 0 300 0%nat)).
    reflexivity.
  - apply (proj2 (dispatch_needs_positive_batch_size
                    nat (service always_echo) no_draw
                    ["a"; "b"] "sys" (-1) default_model 0 300 0%nat)).
    lia.
Defined.

Lemma bracket_repair_idempotent_witness :
  exists repaired,
    repair ["[a]"; "[b"] = (repaired, None)
    /\ Forall2 (fun r r' => (ends_with_bracket r /\ r' = r)
                            \/ (~ ends_with_bracket r /\ r' = r +:+ "]"))
               ["[a]"; "[b"] repaired
    /\ Forall ends_with_bracket repaired
    /\ repair repaired = (repaired, None).
Proof.
  apply (proj1 bracket_repair_idempotent ["[a]"; "[b"]).
  repeat constructor; discriminate.
Defined.

(** * Further properties of the cells *)

(** ** The shape of the batches *)

Lemma batches_lookup (df : list string) (b : Z) (k : nat) (batch : list string) :
  1 <= b ->
  batches df b !! k = Some batch ->
  batch = take (Z.to_nat b) (drop (k * Z.to_nat b) df)
  /\ (k < Z.to_nat (ceil_div (len df) b))%nat.
Proof.
  intros Hb Hk. rewrite batches_windows in Hk by assumption.
  change (map ?f ?l) with (fmap (M:=list) f l) in Hk.
  rewrite list_lookup_fmap in Hk.
  destruct (seq 0 (Z.to_nat (ceil_div (len df) b)) !! k) as [j|] eqn:Hj;
    [|discriminate].
  apply lookup_seq in Hj. destruct Hj as [-> Hlt].
  simpl in Hk. injection Hk as <-. split; [reflexivity | assumption].
Qed.

(** X1.  Every batch is a window of the frame that starts at a multiple of
    [batch_size]; it is never empty and never longer than [batch_size], and
    every batch but the last has exactly [batch_size] rows. *)
Theorem batches_shape (df : list string) (batch_size : Z) (k : nat)
    (batch : list string) :
  1 <= batch_size ->
  batches df batch_size !! k = Some batch ->
  batch = take (Z.to_nat batch_size) (drop (k * Z.to_nat batch_size) df)
  /\ batch <> []
  /\ (length batch <= Z.to_nat batch_size)%nat
  /\ ((S k < length (batches df batch_size))%nat ->
      length batch = Z.to_nat batch_size).
Proof.
  intros Hb Hk.
  destruct (batches_lookup df batch_size k batch Hb Hk) as [Hbatch Hlt].
  split; [exact Hbatch|].
  pose proof (batches_nonempty df batch_size Hb) as Hall.
  rewrite Forall_forall in Hall.
  destruct (Hall batch) as [Hne Hle].
  { apply list_elem_of_lookup. exists k. exact Hk. }
  split; [exact Hne|]. split; [exact Hle|].
  intros Hnext. rewrite batches_length in Hnext by assumption.
  destruct (ceil_div_spec (len df) batch_size) as (Hc0 & Hcov & Hleast);
    [unfold len; lia | lia |].
  rewrite Hbatch, length_take, length_drop.
  destruct (Nat.le_gt_cases (S k * Z.to_nat batch_size) (length df)) as [Hfit|Hshort].
  - lia.
  - exfalso.
    assert (Hcover : len df <= Z.of_nat (S k) * batch_size)
      by (unfold len; nia).
    specialize (Hleast (Z.of_nat (S k)) ltac:(lia) Hcover). lia.
Qed.

(** X2.  A non-empty frame that fits into one batch is sent as one batch that
    holds all its rows. *)
Theorem batches_single (df : list string) (batch_size : Z) :
  df <> [] -> len df <= batch_size -> batches df batch_size = [df].
Proof.
  intros Hne Hfit.
  assert (Hlen : (1 <= length df)%nat) by (destruct df; [contradiction | simpl; lia]).
  assert (Hb : 1 <= batch_size) by (unfold len in Hfit; lia).
  assert (Hc : ceil_div (len df) batch_size = 1).
  { destruct (ceil_div_spec (len df) batch_size) as (Hc0 & Hcov & Hleast);
      [unfold len; lia | lia |].
    specialize (Hleast 1 ltac:(lia) ltac:(lia)).
    destruct (Z.eq_dec (ceil_div (len df) batch_size) 0) as [Hz|Hnz];
      [rewrite Hz in Hcov; unfold len in Hcov; lia | lia]. }
  rewrite batches_windows, Hc by assumption.
  change (seq 0 (Z.to_nat 1)) with [0%nat]. cbn [map].
  rewrite Nat.mul_0_l, drop_0, take_ge by (unfold len in Hfit; lia).
  reflexivity.
Qed.

(** ** What a run can cost *)

Section Budget.

Variable World : Type.
Variable ChatCompletion_create : request -> World -> result completion * World.
Variable uniform : nat -> Q.

Variables (df : list string) (system_message : string) (batch_size : Z).
Variables (model : string) (temperature : Q) (max_tokens : Z).

Local Abbreviation attempt :=
  (batch_body World ChatCompletion_create df system_message batch_size model
              temperature max_tokens).

Local Abbreviation decorated :=
  (get_completion_from_messages_batch World ChatCompletion_create uniform df
     system_message batch_size model temperature max_tokens).




(** X5.  The single-message helper has no decorator: it issues exactly one
    call and never sleeps; an exception of the call reaches the caller as
    it is, and an answer without choices raises [IndexError]. *)
Theorem single_helper_never_retries msgs w res w' t :
  get_completion_from_messages World ChatCompletion_create msgs model
                               temperature max_tokens w = (res, w', t) ->
  exists a,
    ChatCompletion_create
      {| OpenAI.model := model; messages := msgs;
         OpenAI.temperature := temperature;
         OpenAI.max_tokens := max_tokens |} w = (a, w')
    /\ length (issued t) = 1%nat
    /\ delays t = []
    /\ (forall e, a = Raise e -> res = Raise e)
    /\ (forall response, a = Ok response -> choices response = [] ->
                         res = Raise IndexError).
Proof.
  intros Hrun. rewrite get_completion_from_messages_unfold in Hrun.
  destruct (ChatCompletion_create _ w) as [a w1] eqn:Hcall.
  injection Hrun as <- <- <-.
  exists a. split; [reflexivity|]. split; [reflexivity|]. split; [reflexivity|].
  split.
  - intros e ->. reflexivity.
  - intros response -> Hnone. simpl. unfold first_content. rewrite Hnone.
    reflexivity.
Qed.

(** X6.  A non-empty frame that fits into one batch: when the single-message
    helper, called on the messages of that batch with the same parameters,
    returns a content, the batch helper does the same call and returns the
    list of that one content. *)
Theorem one_batch_is_one_single_call w c w' t :
  df <> [] ->
  len df <= batch_size ->
  get_completion_from_messages World ChatCompletion_create
    (batch_messages system_message df) model temperature max_tokens w
  = (Ok c, w', t) ->
  decorated w = (Ok [c], w', t).
Proof.
  intros Hne Hfit Hsingle.
  rewrite get_completion_from_messages_unfold in Hsingle.
  destruct (ChatCompletion_create _ w) as [a w1] eqn:Hcall.
  injection Hsingle as Hc <- <-.
  destruct a as [response|e]; [|discriminate]. simpl in Hc.
  assert (Hs : served World ChatCompletion_create
                 (map (batch_request system_message model temperature max_tokens)
                      (batches df batch_size))
                 w [response] [c] w1).
  { rewrite (batches_single df batch_size Hne Hfit). simpl.
    econstructor; [exact Hcall | exact Hc | constructor]. }
  assert (Hnz : batch_size <> 0).
  { unfold len in Hfit. destruct df; [contradiction | simpl in Hfit; lia]. }
  pose proof (body_served World ChatCompletion_create df system_message
                batch_size model temperature max_tokens _ _ _ _ Hnz Hs) as Hbody.
  rewrite (batches_single df batch_size Hne Hfit) in Hbody.
  apply (retry_loop_first_ok World (backoff uniform) attempt 5 1 _ _ _ _ Hbody).
Qed.

End Budget.

(** ** The user message as an encoding of the batch *)

Lemma user_message_nil : user_message_of [] = "".
Proof. reflexivity. Qed.

Lemma user_message_cons (row : string) (batch : list string) :
  user_message_of (row :: batch) = row +:+ delimiter +:+ user_message_of batch.
Proof.
  unfold user_message_of. simpl. rewrite !user_message_fold.
  rewrite append_nil_l, append_assoc. reflexivity.
Qed.

Lemma user_message_app (batch1 batch2 : list string) :
  user_message_of (batch1 ++ batch2)
  = user_message_of batch1 +:+ user_message_of batch2.
Proof.
  induction batch1 as [|row batch1 IH]; [reflexivity|].
  simpl. rewrite !user_message_cons, IH, !append_assoc. reflexivity.
Qed.

Lemma hash_split (r1 : string) : forall r2 x y,
  hash_free r1 = true -> hash_free r2 = true ->
  r1 +:+ String "#" x = r2 +:+ String "#" y ->
  r1 = r2 /\ x = y.
Proof.
  induction r1 as [|c r1 IH]; intros [|d r2] x y H1 H2 Heq.
  - injection Heq as <-. split; reflexivity.
  - rewrite append_nil_l, append_cons in Heq. injection Heq as <- _.
    simpl in H2. discriminate.
  - rewrite append_nil_l, append_cons in Heq. injection Heq as -> _.
    simpl in H1. discriminate.
  - rewrite !append_cons in Heq. injection Heq as <- Heq.
    simpl in H1, H2. apply andb_prop in H1, H2.
    destruct (IH r2 x y (proj2 H1) (proj2 H2) Heq) as [-> ->].
    split; reflexivity.
Qed.

(** X7.  When no row contains ["#"], the user message determines the batch: two
    batches with the same user message are the same batch. *)
Theorem user_message_injective (batch1 : list string) : forall batch2,
  Forall (fun row => hash_free row = true) batch1 ->
  Forall (fun row => hash_free row = true) batch2 ->
  user_message_of batch1 = user_message_of batch2 ->
  batch1 = batch2.
Proof.
  induction batch1 as [|r1 batch1 IH]; intros [|r2 batch2] H1 H2 Heq.
  - reflexivity.
  - rewrite user_message_cons in Heq. destruct r2; discriminate.
  - rewrite user_message_cons in Heq. destruct r1; discriminate.
  - rewrite !user_message_cons in Heq.
    apply Forall_cons in H1, H2. destruct H1 as [Hr1 H1], H2 as [Hr2 H2].
    change delimiter with (String "#" "###") in Heq.
    rewrite !append_cons in Heq.
    destruct (hash_split r1 r2 _ _ Hr1 Hr2 Heq) as [-> Hrest].
    injection Hrest as Hrest.
    rewrite (IH batch2 H1 H2 Hrest). reflexivity.
Qed.

(** X8.  A row that contains the delimiter reads as two rows: the batch with the
    row [a####b] and the batch with the rows [a] and [b] in its place have
    the same user message. *)
Theorem user_message_delimiter_in_row (before after : list string) (a b : string) :
  user_message_of (before ++ (a +:+ delimiter +:+ b) :: after)
  = user_message_of (before ++ a :: b :: after).
Proof.
  rewrite !user_message_app, !user_message_cons, !append_assoc. reflexivity.
Qed.

(** ** More on bracket repair *)

(** X10.  The cell on any list of responses.  The list keeps its length.  Either
    no string is empty, every element is closed and nothing is raised; or
    the cell stops with [IndexError] at the first empty string, having
    already closed the elements before it in place and leaving the others
    as they were. *)
Theorem repair_total (responses : list string) :
  length (repair responses).1 = length responses
  /\ ((Forall (fun r => r <> "") responses
       /\ repair responses = (map close_bracket responses, None))
      \/ (exists before after,
            responses = before ++ "" :: after
            /\ Forall (fun r => r <> "") before
            /\ repair responses
               = (map close_bracket before ++ "" :: after, Some IndexError))).
Proof.
  assert (Hsplit : Forall (fun r => r <> "") responses
                   \/ exists before after,
                        responses = before ++ "" :: after
                        /\ Forall (fun r => r <> "") before).
  { induction responses as [|r responses IH]; [left; constructor|].
    destruct (String.eqb_spec r "") as [->|Hr].
    - right. exists [], responses. split; [reflexivity | constructor].
    - destruct IH as [Hall | (before & after & -> & Hbefore)].
      + left. constructor; assumption.
      + right. exists (r :: before), after.
        split; [reflexivity | constructor; assumption]. }
  destruct Hsplit as [Hall | (before & after & -> & Hbefore)].
  - pose proof (repair_loop_all responses [] Hall) as Hrun.
    simpl in Hrun. change (repair responses = (map close_bracket responses, None))
      in Hrun.
    split; [rewrite Hrun; apply length_map|].
    left. split; [exact Hall | exact Hrun].
  - pose proof (repair_loop_empty_string before [] after (length after) Hbefore)
      as Hrun.
    assert (Hrepair : repair (before ++ "" :: after)
                      = (map close_bracket before ++ "" :: after,
                         Some IndexError)).
    { unfold repair. rewrite length_app. exact Hrun. }
    split; [rewrite Hrepair; simpl; rewrite !length_app, length_map; reflexivity|].
    right. exists before, after.
    split; [reflexivity|]. split; [exact Hbefore | exact Hrepair].
Qed.

(** ** More on the distinct labels *)

Lemma lower_char_space (c : ascii) : is_space (lower_char c) = is_space c.
Proof. destruct c as [[] [] [] [] [] [] [] []]; reflexivity. Qed.

Lemma lower_char_idempotent (c : ascii) : lower_char (lower_char c) = lower_char c.
Proof. destruct c as [[] [] [] [] [] [] [] []]; reflexivity. Qed.

Lemma lower_idempotent (s : string) : lower (lower s) = lower s.
Proof.
  induction s as [|c s IH]; [reflexivity|].
  simpl. rewrite lower_char_idempotent, IH. reflexivity.
Qed.

Lemma lower_append (s1 s2 : string) : lower (s1 +:+ s2) = lower s1 +:+ lower s2.
Proof.
  induction s1 as [|c s1 IH]; [reflexivity|].
  rewrite append_cons. simpl. rewrite IH, append_cons. reflexivity.
Qed.

Lemma lower_empty (s : string) : String.eqb (lower s) "" = String.eqb s "".
Proof. destruct s; reflexivity. Qed.

(** Lower-casing commutes with splitting into words. *)
Lemma split_from_lower (s : string) : forall word,
  split_from (lower word) (lower s) = map lower (split_from word s).
Proof.
  induction s as [|c s IH]; intros word; simpl.
  - rewrite lower_empty. destruct (String.eqb word ""); reflexivity.
  - rewrite lower_char_space. destruct (is_space c).
    + rewrite lower_empty. pose proof (IH "") as Hrest.
      change (lower "") with "" in Hrest.
      destruct (String.eqb word ""); simpl; rewrite Hrest; reflexivity.
    + rewrite <- IH, lower_append. reflexivity.
Qed.

Lemma split_lower (s : string) : split (lower s) = map lower (split s).
Proof. unfold split. apply (split_from_lower s ""). Qed.

(** X11.  Running the comprehension cell again on its own result changes
    nothing: the labels it kept are still single words and already
    lower-case. *)
Theorem single_word_topics_idempotent (all_topics : list string) :
  single_word_topics (single_word_topics all_topics)
  = single_word_topics all_topics
  /\ unique_topics (single_word_topics all_topics) = unique_topics all_topics.
Proof.
  assert (Hidem : single_word_topics (single_word_topics all_topics)
                  = single_word_topics all_topics).
  { unfold single_word_topics.
    induction all_topics as [|s l IH]; [reflexivity|].
    rewrite filter_cons. destruct (decide (len (split s) = 1)) as [Hone|Hmany].
    - simpl. rewrite filter_cons.
      destruct (decide (len (split (lower s)) = 1)) as [_|Hno].
      + simpl. rewrite lower_idempotent. f_equal. exact IH.
      + exfalso. apply Hno. rewrite split_lower. unfold len in *.
        rewrite length_map. exact Hone.
    - exact IH. }
  split; [exact Hidem|].
  unfold unique_topics. rewrite Hidem. reflexivity.
Qed.

Lemma size_list_to_set_le (l : list string) :
  (size (list_to_set l : gset string) <= length l)%nat.
Proof.
  induction l as [|x l IH].
  - rewrite list_to_set_nil, size_empty. lia.
  - rewrite list_to_set_cons, size_union_alt, size_singleton. simpl.
    assert (Hsub : (list_to_set l ∖ {[x]} : gset string) ⊆ list_to_set l)
      by apply subseteq_difference_l, reflexivity.
    apply subseteq_size in Hsub. lia.
Qed.

(** X12.  Every distinct label is lower-case (lower-casing it again changes
    nothing) and is a single word, and there are no more distinct labels
    than labels read. *)
Theorem unique_topics_members (all_topics : list string) :
  (forall x, x ∈ unique_topics all_topics ->
             lower x = x /\ len (split x) = 1)
  /\ (size (unique_topics all_topics) <= length all_topics)%nat.
Proof.
  split.
  - intros x Hx. unfold unique_topics, single_word_topics in Hx.
    rewrite elem_of_list_to_set in Hx.
    change (map lower) with (fmap (M:=list) lower) in Hx.
    apply list_elem_of_fmap in Hx. destruct Hx as (s & -> & Hin).
    apply list_elem_of_filter in Hin. destruct Hin as [Hone _].
    split; [apply lower_idempotent|].
    rewrite split_lower. unfold len in *. rewrite length_map. exact Hone.
  - unfold unique_topics, single_word_topics.
    etransitivity; [apply size_list_to_set_le|].
    rewrite length_map. apply length_filter.
Qed.

(** ** Finding a row in its batch, and the size of a prompt *)

(** X3.  Row [i] of the frame is row [i mod batch_size] of batch
    [i / batch_size]; past the last row both lookups find nothing. *)
Theorem batches_row_lookup (df : list string) (batch_size : Z) (i : nat) :
  1 <= batch_size ->
  batches df batch_size !! (i / Z.to_nat batch_size)%nat
    ≫= (fun batch => batch !! (i mod Z.to_nat batch_size)%nat)
  = df !! i.
Proof.
  intros Hb. set (b := Z.to_nat batch_size).
  assert (Hbpos : (1 <= b)%nat) by (subst b; lia).
  pose proof (Nat.div_mod_eq i b) as Hdm.
  pose proof (Nat.mod_upper_bound i b ltac:(lia)) as Hmod.
  set (q := (i / b)%nat) in *. set (r := (i mod b)%nat) in *.
  clearbody q r.
  rewrite batches_windows by assumption. fold b.
  change (map ?f ?l) with (fmap (M:=list) f l).
  rewrite list_lookup_fmap.
  destruct (Nat.lt_ge_cases q (Z.to_nat (ceil_div (len df) batch_size)))
    as [Hin|Hout].
  - rewrite lookup_seq_lt by assumption. simpl.
    rewrite lookup_take_lt by assumption.
    rewrite lookup_drop. f_equal. rewrite Nat.mul_comm. symmetry. exact Hdm.
  - rewrite (proj2 (lookup_ge_None _ _)) by (rewrite length_seq; exact Hout).
    simpl. symmetry. apply lookup_ge_None.
    destruct (ceil_div_spec (len df) batch_size) as (Hc0 & Hcov & _);
      [unfold len; lia | lia |].
    unfold len in Hcov.
    assert (Hqb : Z.of_nat q * batch_size <= Z.of_nat i).
    { rewrite Hdm. subst b. nia. }
    assert (Hcq : ceil_div (Z.of_nat (length df)) batch_size <= Z.of_nat q)
      by (unfold len in Hout; lia).
    apply Nat2Z.inj_le. etransitivity; [exact Hcov|].
    etransitivity; [|exact Hqb].
    apply Z.mul_le_mono_nonneg_r; lia.
Qed.

Lemma length_append (s1 s2 : string) :
  String.length (s1 +:+ s2) = (String.length s1 + String.length s2)%nat.
Proof.
  induction s1 as [|c s1 IH]; [reflexivity|].
  rewrite append_cons. simpl. rewrite IH. reflexivity.
Qed.

(** X9.  The user message of a batch is as long as its rows together plus four
    characters of delimiter per row. *)
Theorem user_message_length (batch : list string) :
  String.length (user_message_of batch)
  = (list_sum (map String.length batch) + 4 * length batch)%nat.
Proof.
  induction batch as [|row batch IH]; [reflexivity|].
  rewrite user_message_cons, !length_append, IH. simpl. lia.
Qed.

(** ** The further properties on concrete inputs *)

Lemma batches_shape_witness :
  ["a"; "b"] = take 2 (drop (0 * 2) ["a"; "b"; "c"; "d"; "e"])
  /\ ["a"; "b"] <> []
  /\ (length ["a"; "b"] <= 2)%nat
  /\ ((1 < length (batches ["a"; "b"; "c"; "d"; "e"] 2))%nat ->
      length ["a"; "b"] = 2%nat).
Proof.
  apply (batches_shape ["a"; "b"; "c"; "d"; "e"] 2 0 ["a"; "b"]).
  - lia.
  - reflexivity.
Defined.

Lemma batches_single_witness : batches ["a"; "b"] 100 = [["a"; "b"]].
Proof.
  apply (batches_single ["a"; "b"] 100).
  - discriminate.
  - unfold len. simpl. lia.
Defined.


Lemma single_helper_never_retries_witness :
  exists a,
    service (always_failing RateLimitError)
      {| model := default_model;
         messages := [ {| role := "user"; content := "hello" |} ];
         temperature := 0; max_tokens := 150 |} 0%nat = (a, 1%nat)
    /\ length (issued [Call {| model := default_model;
                               messages := [ {| role := "user";
                                                content := "hello" |} ];
                               temperature := 0; max_tokens := 150 |}
                            (Raise RateLimitError)]) = 1%nat
    /\ delays [Call {| model := default_model;
                       messages := [ {| role := "user"; content := "hello" |} ];
                       temperature := 0; max_tokens := 150 |}
                    (Raise RateLimitError)] = []
    /\ (forall e, a = Raise e -> Raise RateLimitError = Raise (A:=string) e)
    /\ (forall response, a = Ok response -> choices response = [] ->
                         Raise RateLimitError = Raise (A:=string) IndexError).
Proof.
  apply (single_helper_never_retries nat (service (always_failing RateLimitError))
           default_model 0 150 [ {| role := "user"; content := "hello" |} ]
           0%nat (Raise RateLimitError) 1%nat).
  reflexivity.
Defined.

Lemma one_batch_is_one_single_call_witness :
  get_completion_from_messages_batch nat (service always_echo) no_draw
    ["a"; "b"] "sys" 100 default_model 0 300 0%nat
  = (Ok ["a####b####"], 1%nat,
     [Call (batch_request "sys" default_model 0 300 ["a"; "b"])
           (Ok (reply "a####b####"))]).
Proof.
  apply (one_batch_is_one_single_call nat (service always_echo) no_draw
           ["a"; "b"] "sys" 100 default_model 0 300 0%nat).
  - discriminate.
  - unfold len. simpl. lia.
  - reflexivity.
Defined.

Lemma user_message_injective_witness : ["rock melting"; "ufo"] = ["rock melting"; "ufo"].
Proof.
  apply (user_message_injective ["rock melting"; "ufo"] ["rock melting"; "ufo"]).
  - repeat constructor.
  - repeat constructor.
  - reflexivity.
Defined.

Lemma unique_topics_members_witness :
  lower "tech" = "tech" /\ len (split "tech") = 1.
Proof.
  apply (proj1 (unique_topics_members ["Tech"; "tech"; "Space Policy"; "space"])
               "tech").
  vm_compute. reflexivity.
Defined.

Lemma batches_row_lookup_witness :
  batches ["a"; "b"; "c"; "d"; "e"] 2 !! (3 / Z.to_nat 2)%nat
    ≫= (fun batch => batch !! (3 mod Z.to_nat 2)%nat)
  = ["a"; "b"; "c"; "d"; "e"] !! 3%nat.
Proof.
  apply (batches_row_lookup ["a"; "b"; "c"; "d"; "e"] 2 3).
  lia.
Defined.
